(** * GromacsTools: region-based atom matching and RMSD report

    A shallow embedding of [compute_rmsd.py] (region parsing, atom
    classification, per-group matching and superposition, report rows) and of
    the atom filter of [gmx2pdb_strip.py].

    The Bio.PDB object graph is rendered as records; atom coordinates live in
    a store indexed by location, because [Superimposer.apply] rewrites them in
    place while the group lists keep referring to the same atoms.  Everything
    numerical (the SVD fit, the coordinate transform, the float formatting) is
    a parameter of the development. *)

From Stdlib Require Import ZArith String Ascii DecimalString.
From stdpp Require Import base decidable option list sets gmap strings functions.

Set Warnings "-clear-no-such-hyp".

Open Scope string_scope.
Open Scope Z_scope.
Open Scope list_scope.

(** ** Bio.PDB entities *)

Abbreviation loc := nat.

(** [Residue.get_id()] is the triple (hetero field, sequence number,
    insertion code); the hetero field is [" "] for ordinary residues, ["W"]
    for waters and ["H_xxx"] for other heteroatom residues. *)
Record ResidueId := mkResidueId {
  hetfield : string;
  resseq : Z;
  icode : string
}.

Record Residue := mkResidue {
  get_id : ResidueId;
  resname : string;
  child_list : list (string * loc)
}.

(** An atom as the scripts see it: its parent residue, its name, and the
    location of its coordinate. *)
Record Atom := mkAtom {
  get_parent : Residue;
  get_name : string;
  coord_loc : loc
}.

Definition Chain := list Residue.

(** [for atom in res] *)
Definition residue_atoms (res : Residue) : list Atom :=
  (fun nl => mkAtom res (fst nl) (snd nl)) <$> child_list res.

(** [chain.get_atoms()] *)
Definition chain_get_atoms (chain : Chain) : list Atom :=
  chain ≫= residue_atoms.

(** ** Exceptions *)

(** ValueError and KeyError are raised by the script's own code;
    PDBException and LinAlgError are what [Superimposer.set_atoms] can raise
    (atom lists of different length, an SVD that fails). *)
Inductive exn := ValueError | KeyError | PDBException | LinAlgError.

Inductive result (A : Type) :=
  | Ok (a : A)
  | Raise (e : exn).
Arguments Ok {A} a.
Arguments Raise {A} e.

#[global] Instance result_ret : MRet result := fun A a => Ok a.

#[global] Instance result_bind : MBind result := fun A B k r =>
  match r with
  | Ok a => k a
  | Raise e => Raise e
  end.

Definition lift_key {A} (o : option A) : result A :=
  match o with
  | Some a => Ok a
  | None => Raise KeyError
  end.

Fixpoint mapR {A B} (f : A -> result B) (l : list A) : result (list B) :=
  match l with
  | [] => Ok []
  | x :: l' => y ← f x; ys ← mapR f l'; Ok (y :: ys)
  end.

(** ** Region sets *)

Definition Regions := list (Z * Z).

(** [any(start <= resnum <= end for start,end in regs)] *)
Definition in_regions (regs : Regions) (resnum : Z) : bool :=
  existsb (fun se => (fst se <=? resnum) && (resnum <=? snd se)) regs.

(** ** parse_ranges *)

(** [str.split(sep)] with an explicit one-character separator: every
    occurrence of the separator cuts, empty pieces are kept. *)
Fixpoint py_split (sep : ascii) (s : string) : list string :=
  match s with
  | EmptyString => [EmptyString]
  | String c s' =>
      if Ascii.eqb c sep then EmptyString :: py_split sep s'
      else match py_split sep s' with
           | [] => [String c EmptyString]
           | p :: ps => String c p :: ps
           end
  end.

Definition comma : ascii := ","%char.
Definition hyphen : ascii := "-"%char.

Section ParseRanges.

(** The builtin [int()] on a string: [None] when it raises ValueError. *)
Variable py_int : string -> option Z.

Definition int_of (s : string) : result Z :=
  match py_int s with
  | Some z => Ok z
  | None => Raise ValueError
  end.

(** [start,end = part.split('-')]: unpacking anything but two pieces
    raises ValueError. *)
Definition unpack2 (pieces : list string) : result (string * string) :=
  match pieces with
  | [a; b] => Ok (a, b)
  | _ => Raise ValueError
  end.

(** The loop body, with [regions] as accumulator. *)
Definition parse_part (regions : Regions) (part : string) : result Regions :=
  '(start, end_) ← unpack2 (py_split hyphen part);
  a ← int_of start;
  b ← int_of end_;
  Ok (regions ++ [(a, b)]).

Fixpoint parse_loop (parts : list string) (regions : Regions) : result Regions :=
  match parts with
  | [] => Ok regions
  | part :: rest => regions' ← parse_part regions part; parse_loop rest regions'
  end.

Definition parse_ranges (rangestr : string) : result Regions :=
  parse_loop (py_split comma rangestr) [].

End ParseRanges.

(** ** atom_groups *)

(** A dict in insertion order. *)
Definition Dict (V : Type) := list (string * V).

Fixpoint dict_get {V} (d : Dict V) (k : string) : option V :=
  match d with
  | [] => None
  | (k', v) :: d' => if String.eqb k' k then Some v else dict_get d' k
  end.

(** [d[k] = v]: overwrite in place, or add at the end. *)
Fixpoint dict_set {V} (d : Dict V) (k : string) (v : V) : Dict V :=
  match d with
  | [] => [(k, v)]
  | (k', v') :: d' =>
      if String.eqb k' k then (k', v) :: d' else (k', v') :: dict_set d' k v
  end.

(** [d[k].append(x)] for a key that is present. *)
Fixpoint dict_append {V} (d : Dict (list V)) (k : string) (x : V) : Dict (list V) :=
  match d with
  | [] => []
  | (k', l) :: d' =>
      if String.eqb k' k then (k', l ++ [x]) :: d' else (k', l) :: dict_append d' k x
  end.

Definition group_names : list string := ["all"; "backbone"; "loop"; "ec"; "ic"].

Definition empty_groups : Dict (list Atom) := (fun k => (k, [])) <$> group_names.

Definition is_backbone_name (n : string) : bool :=
  String.eqb n "N" || String.eqb n "CA" || String.eqb n "C".

Section AtomGroups.

(** [is_aa(res, standard=True)] of Bio.PDB. *)
Variable is_aa : Residue -> bool.

Variables loop_regs ec_regs ic_regs : Regions.

Definition region_table : list (string * Regions) :=
  [("loop", loop_regs); ("ec", ec_regs); ("ic", ic_regs)].

Definition classify_region (resnum : Z) (atom : Atom)
    (groups : Dict (list Atom)) (nr : string * Regions) : Dict (list Atom) :=
  if in_regions (snd nr) resnum then dict_append groups (fst nr) atom else groups.

Definition classify_atom (resnum : Z) (groups : Dict (list Atom)) (atom : Atom)
    : Dict (list Atom) :=
  let groups := dict_append groups "all" atom in
  let groups :=
    if is_backbone_name (get_name atom) then dict_append groups "backbone" atom
    else groups in
  foldl (classify_region resnum atom) groups region_table.

Definition classify_residue (groups : Dict (list Atom)) (res : Residue)
    : Dict (list Atom) :=
  if negb (is_aa res) then groups
  else
    let resnum := resseq (get_id res) in
    foldl (classify_atom resnum) groups (residue_atoms res).

Definition atom_groups (chain : Chain) : Dict (list Atom) :=
  foldl classify_residue empty_groups chain.

End AtomGroups.

(** ** The converter's atom filter (gmx2pdb_strip.ProteinSelect) *)

Definition standard_aa : list string :=
  ["ALA"; "ARG"; "ASN"; "ASP"; "CYS"; "GLN"; "GLU"; "GLY"; "HIS"; "ILE";
   "LEU"; "LYS"; "MET"; "PHE"; "PRO"; "SER"; "THR"; "TRP"; "TYR"; "VAL"].

Definition str_in (s : string) (l : list string) : bool :=
  existsb (String.eqb s) l.

Definition accept_atom (atom : Atom) : bool :=
  let residue := get_parent atom in
  let res_id := get_id residue in
  if String.eqb (hetfield res_id) " " then
    if str_in (resname residue) standard_aa then true
    else if String.eqb (resname residue) "CYSP" then
      str_in (get_name atom) ["N"; "CA"; "C"; "O"; "CB"; "SG"]
    else false
  else if String.prefix "H_" (hetfield res_id) then
    String.eqb (resname residue) "ZN" && String.eqb (get_name atom) "ZN"
  else false.

(** ** Matching by correspondence key *)

Abbreviation Key := (Z * string)%type.

(** [(atom.get_parent().get_id()[1], atom.get_name())] *)
Definition atom_key (a : Atom) : Key :=
  (resseq (get_id (get_parent a)), get_name a).

(** [{ key(atom): atom for atom in atoms }]: a later atom overwrites an
    earlier one with the same key. *)
Definition key_map (atoms : list Atom) : gmap Key Atom :=
  foldl (fun m a => <[atom_key a := a]> m) ∅ atoms.

(** [[ m[k] for k in keys ]], iterating the set [keys]. *)
Definition atoms_for (m : gmap Key Atom) (keys : gset Key) : result (list Atom) :=
  mapR (fun k => lift_key (m !! k)) (elements keys).

(** ** The comparison pipeline of [main] (steps 4 to 6) *)

Section Pipeline.

(** Coordinates, the fitted (rotation, translation) pair, the RMS value. *)
Variables Coord RotTran Rms : Type.

(** The fit made inside [Superimposer.set_atoms], of the moving
    coordinates onto the fixed ones: it gives [sup.rms] and [sup.rotran], or
    raises. *)
Variable svd_fit : list Coord -> list Coord -> result (Rms * RotTran).

(** [Atom.transform(rot, tran)] on one coordinate. *)
Variable transform : RotTran -> Coord -> Coord.

(** [f"{rms:.3f}"] *)
Variable fmt3 : Rms -> string.

Variable is_aa : Residue -> bool.
Variables loops ec ic : Regions.
Variables ref_chain cv_chain : Chain.

(** The coordinate store: [atom.coord] for every atom object. *)
Local Abbreviation Heap := (loc -> Coord).

Definition get_coord (h : Heap) (a : Atom) : Coord := h (coord_loc a).

(** [Superimposer.set_atoms(fixed, moving)] reads the coordinates now;
    [main] does not catch what it raises. *)
Definition set_atoms (h : Heap) (fixed moving : list Atom) : result (Rms * RotTran) :=
  svd_fit (get_coord h <$> fixed) (get_coord h <$> moving).

(** [atom.transform(rot, tran)] rebinds [atom.coord]. *)
Definition atom_transform (rotran : RotTran) (h : Heap) (a : Atom) : Heap :=
  <[coord_loc a := transform rotran (h (coord_loc a))]> h.

(** [Superimposer.apply(atom_list)] *)
Definition sup_apply (rotran : RotTran) (atom_list : list Atom) (h : Heap) : Heap :=
  foldl (atom_transform rotran) h atom_list.

Definition ref_atoms : Dict (list Atom) := atom_groups is_aa loops ec ic ref_chain.
Definition cv_atoms : Dict (list Atom) := atom_groups is_aa loops ec ic cv_chain.

(** The matching part of one turn of [for grp in ref_atoms]: the two key
    maps, the shared keys, and (unless there is none) the two atom lists
    passed to [set_atoms], both read off the same set [keys].  The lists
    [ref_coords] and [cv_coords] of the source repeat these lookups and are
    not used afterwards. *)
Definition matched_atoms (grp : string) : result (option (list Atom * list Atom)) :=
  ra ← lift_key (dict_get ref_atoms grp);
  ca ← lift_key (dict_get cv_atoms grp);
  let ref_map := key_map ra in
  let cv_map := key_map ca in
  let keys := dom ref_map ∩ dom cv_map in
  if bool_decide (keys = ∅) then Ok None
  else
    fixed ← atoms_for ref_map keys;
    moving ← atoms_for cv_map keys;
    Ok (Some (fixed, moving)).

(** One turn of the loop, on the store and the [results] dict. *)
Definition group_step (st : Heap * Dict (option Rms)) (grp : string)
    : result (Heap * Dict (option Rms)) :=
  let h := fst st in
  let results := snd st in
  m ← matched_atoms grp;
  match m with
  | None => Ok (h, dict_set results grp None)
  | Some (fixed, moving) =>
      sup ← set_atoms h fixed moving;
      Ok (sup_apply (snd sup) (chain_get_atoms cv_chain) h,
          dict_set results grp (Some (fst sup)))
  end.

Fixpoint for_groups (grps : list string) (st : Heap * Dict (option Rms))
    : result (Heap * Dict (option Rms)) :=
  match grps with
  | [] => Ok st
  | grp :: rest => st' ← group_step st grp; for_groups rest st'
  end.

(** One data row of the CSV: group, n_atoms, rmsd cell. *)
Definition write_row (item : string * option Rms) : result (string * nat * string) :=
  ra ← lift_key (dict_get ref_atoms (fst item));
  let n := size (list_to_set (atom_key <$> ra) : gset Key) in
  Ok (fst item, n, match snd item with Some rms => fmt3 rms | None => "NA" end).

(** [main] from step 4 on, given the parsed regions, the two chains and the
    initial store: the final store, the [results] dict and the data rows
    written after the header row. *)
Definition main (h0 : Heap)
    : result (Heap * Dict (option Rms) * list (string * nat * string)) :=
  st ← for_groups (fst <$> ref_atoms) (h0, []);
  rows ← mapR write_row (snd st);
  Ok (fst st, snd st, rows).

End Pipeline.

(** ** The rest of [main]: arguments and chain lookup *)

(** [parse_ranges(args.x) if args.x else []]: an empty string is falsy. *)
Definition region_arg (py_int : string -> option Z) (arg : string) : result Regions :=
  match arg with
  | EmptyString => Ok []
  | _ => parse_ranges py_int arg
  end.

(** [structure[0][chain_id]]: a structure maps model ids to models, a
    model maps chain ids to chains; a missing id raises KeyError. *)
Definition extract_atoms (structure : gmap Z (gmap string Chain)) (chain_id : string)
    : result Chain :=
  model ← lift_key (structure !! 0);
  lift_key (model !! chain_id).

Section MainArgs.

Variables Coord RotTran Rms : Type.
Variable svd_fit : list Coord -> list Coord -> result (Rms * RotTran).
Variable transform : RotTran -> Coord -> Coord.
Variable fmt3 : Rms -> string.
Variable is_aa : Residue -> bool.
Variable py_int : string -> option Z.

(** [main] from the parsed command line on.  The download and the two
    [get_structure] calls sit between the region parsing and the chain
    lookup; their results are the two structures given here. *)
Definition main_from_args (loops_arg ec_arg ic_arg chain_id : string)
    (ref_struct conv_struct : gmap Z (gmap string Chain)) (h0 : loc -> Coord)
    : result ((loc -> Coord) * Dict (option Rms) * list (string * nat * string)) :=
  loops ← region_arg py_int loops_arg;
  ec ← region_arg py_int ec_arg;
  ic ← region_arg py_int ic_arg;
  ref_chain ← extract_atoms ref_struct chain_id;
  cv_chain ← extract_atoms conv_struct chain_id;
  main Coord RotTran Rms svd_fit transform fmt3 is_aa loops ec ic
    ref_chain cv_chain h0.

End MainArgs.

(** * Vocabulary of the statements *)

(** ** Kinds of residue, by hetero field *)

Definition ordinary_residue (r : Residue) : Prop := hetfield (get_id r) = " ".
Definition water_residue (r : Residue) : Prop := hetfield (get_id r) = "W".
Definition hetero_residue (r : Residue) : Prop :=
  ∃ t, hetfield (get_id r) = String "H" (String "_" t).

(** ** Group membership *)

Section GroupMembership.

Variable is_aa : Residue -> bool.
Variables loop_regs ec_regs ic_regs : Regions.

(** Whether an atom of a residue numbered [resnum] goes to group [k]. *)
Definition goes_to (k : string) (resnum : Z) (a : Atom) : bool :=
  String.eqb k "all"
  || (String.eqb k "backbone" && is_backbone_name (get_name a))
  || (String.eqb k "loop" && in_regions loop_regs resnum)
  || (String.eqb k "ec" && in_regions ec_regs resnum)
  || (String.eqb k "ic" && in_regions ic_regs resnum).

(** The members of group [k] taken from residue [res], in order. *)
Definition residue_share (k : string) (res : Residue) : list Atom :=
  if is_aa res
  then filter (fun a => goes_to k (resseq (get_id res)) a) (residue_atoms res)
  else [].

End GroupMembership.

(** ** Tokens of a region string *)

(** Whether character [c] occurs in [s]. *)
Fixpoint occurs (c : ascii) (s : string) : bool :=
  match s with
  | EmptyString => false
  | String x s' => Ascii.eqb x c || occurs c s'
  end.

(** How many times character [c] occurs in [s]. *)
Fixpoint count_char (c : ascii) (s : string) : nat :=
  match s with
  | EmptyString => O
  | String x s' => if Ascii.eqb x c then S (count_char c s') else count_char c s'
  end.

(** [sep.join(pieces)] for a one-character separator. *)
Definition join (sep : ascii) (pieces : list string) : string :=
  String.concat (String sep EmptyString) pieces.

Section Tokens.

Variable py_int : string -> option Z.

(** A well-formed token: two hyphen-free sides that [int()] accepts, with
    one hyphen between them; [p] is the pair of their values. *)
Definition token_pair (tok : string) (p : Z * Z) : Prop :=
  ∃ a b, tok = String.append a (String hyphen b)
         ∧ occurs hyphen a = false ∧ occurs hyphen b = false
         ∧ py_int a = Some (fst p) ∧ py_int b = Some (snd p).

Definition token_ok (tok : string) : Prop := ∃ p, token_pair tok p.

End Tokens.

(** A plain decimal reader, used in place of [int()] in the examples. *)
Definition decimal_int (s : string) : option Z :=
  Z.of_int <$> NilEmpty.int_of_string s.

(** ** The report and the engine *)

Section Report.

Variables Coord RotTran Rms : Type.
Variable svd_fit : list Coord -> list Coord -> result (Rms * RotTran).
Variable fmt3 : Rms -> string.
Variable is_aa : Residue -> bool.
Variables loops ec ic : Regions.
Variable ref_chain : Chain.

(** The unique reference-side keys of a group. *)
Definition ref_key_count (grp : string) : nat :=
  length (remove_dups
            (atom_key <$> default [] (dict_get (ref_atoms is_aa loops ec ic ref_chain) grp))).

Definition rmsd_cell (rms : option Rms) : string :=
  match rms with Some r => fmt3 r | None => "NA" end.

(** Modelled from the spec: the Superposition Engine on exactly one matched
    point, and the rendering of its RMSD; the engine is Bio.PDB's
    Superimposer and is not under src.  Spec 4.4: with exactly one matched
    point the RMSD is 0 and the Engine must not fail on this input; spec 6:
    a numeric RMSD is rendered with fixed 3-decimal precision, so this one
    is written 0.000. *)
Definition one_point_fit : Prop :=
  ∀ r c : Coord, ∃ sup, svd_fit [r] [c] = Ok sup ∧ fmt3 (fst sup) = "0.000".

End Report.

(** ** Sample data *)

Module Sample.

Definition std (r : Residue) : bool := str_in (resname r) standard_aa.

Definition res (het : string) (n : Z) (nm : string) (ch : list (string * loc)) :=
  mkResidue (mkResidueId het n " ") nm ch.

Definition four (base : nat) : list (string * loc) :=
  [("N", base); ("CA", S base); ("C", S (S base)); ("O", S (S (S base)))].

(** Reference: residues 1..4 and a zinc ion; locations 0.. *)
Definition ref_chain : Chain :=
  [res " " 1 "ALA" (four 0%nat); res " " 2 "GLY" (four 4%nat);
   res " " 3 "SER" (four 8%nat); res " " 4 "VAL" (four 12%nat);
   res "H_ZN" 900 "ZN" [("ZN", 16%nat)]].

(** Target: residue 1, residue 2 without its O, residue 3 with its CA
    only, a water; locations 100.. *)
Definition cv_chain : Chain :=
  [res " " 1 "ALA" (four 100%nat);
   res " " 2 "GLY" [("N", 104%nat); ("CA", 105%nat); ("C", 106%nat)];
   res " " 3 "SER" [("CA", 107%nat)];
   res "W" 500 "HOH" [("O", 108%nat)]].

(** Another target, sharing no residue number with the reference. *)
Definition cv_far : Chain := [res " " 50 "ALA" (four 200%nat)].

Definition loops : Regions := [(2, 3)].
Definition ec : Regions := [(3, 3)].
Definition ic : Regions := [(4, 4)].

(** A toy engine on integer points: the fit returns the number of points
    less one as "rms" and a shift by the number of points as transform. *)
Definition toy_fit (f m : list Z) : result (nat * Z) :=
  Ok (pred (length f), Z.of_nat (length m)).
Definition toy_transform (d : Z) (c : Z) : Z := c + d.
Definition toy_fmt (n : nat) : string := match n with O => "0.000" | _ => "some" end.

(** An engine whose SVD never converges. *)
Definition failing_fit (f m : list Z) : result (nat * Z) := Raise LinAlgError.

Definition h0 : loc -> Z := fun l => Z.of_nat l.

Definition run_on (ref cv : Chain) :=
  main Z Z nat toy_fit toy_transform toy_fmt std loops ec ic ref cv h0.

Definition run := run_on ref_chain cv_chain.

Definition groups_of (chain : Chain) (grp : string) : list Atom :=
  default [] (dict_get (atom_groups std loops ec ic chain) grp).

(** The lists matched for a group of the sample. *)
Definition lists_of (grp : string) : list Atom * list Atom :=
  match matched_atoms std loops ec ic ref_chain cv_chain grp with
  | Ok (Some p) => p
  | _ => ([], [])
  end.

Definition backbone_fixed : list Atom := Eval vm_compute in fst (lists_of "backbone").
Definition backbone_moving : list Atom := Eval vm_compute in snd (lists_of "backbone").

(** What a sample run returned (the initial store and no row if it
    raised). *)
Definition out_of
    (r : result ((loc -> Z) * Dict (option nat) * list (string * nat * string)))
    : (loc -> Z) * Dict (option nat) * list (string * nat * string) :=
  match r with
  | Ok o => o
  | Raise _ => (h0, [], [])
  end.

End Sample.

(** * Properties *)

(** ** Small facts on strings and the error monad *)

Lemma str_in_spec (s : string) (l : list string) : str_in s l = true ↔ s ∈ l.
Proof.
  unfold str_in. induction l as [|x l IH]; simpl.
  - split; [discriminate | inversion 1].
  - rewrite orb_true_iff, IH, elem_of_cons.
    destruct (String.eqb_spec s x); intuition congruence.
Qed.

Lemma prefix_H_spec (s : string) :
  String.prefix "H_" s = true ↔ ∃ t, s = String "H" (String "_" t).
Proof.
  split.
  - destruct s as [|c [|d t]]; cbn -[ascii_dec]; try discriminate;
      repeat match goal with
             | |- context [ascii_dec ?x ?y] => destruct (ascii_dec x y); subst
             end; try discriminate.
    intros _. by exists t.
  - intros [t ->]. cbn -[ascii_dec].
    repeat match goal with
           | |- context [ascii_dec ?x ?y] => destruct (ascii_dec x y)
           end; first [congruence | by destruct t].
Qed.

(** ** Region membership *)

(** C5. The region test holds exactly when the residue number lies in one
    of the closed intervals of the set, both ends included; the empty set
    matches nothing and an interval whose start exceeds its end matches
    nothing. *)
Theorem in_regions_closed_intervals (regs : Regions) (n : Z) :
  (in_regions regs n = true ↔ ∃ lo hi, (lo, hi) ∈ regs ∧ lo ≤ n ≤ hi)
  ∧ in_regions [] n = false
  ∧ (∀ lo hi, hi < lo → in_regions [(lo, hi)] n = false).
Proof.
  split; [|split].
  - unfold in_regions. induction regs as [|[s e] regs IH]; simpl.
    + split; [discriminate|]. intros (lo & hi & H & _). inversion H.
    + rewrite orb_true_iff, IH, andb_true_iff, !Z.leb_le. split.
      * intros [H | (lo & hi & H & Hn)].
        -- exists s, e. split; [left | lia].
        -- exists lo, hi. split; [by right | done].
      * intros (lo & hi & H & Hn). apply elem_of_cons in H as [H | H].
        -- inversion H; subst. left; lia.
        -- right. by exists lo, hi.
  - reflexivity.
  - intros lo hi Hlt. unfold in_regions. simpl.
    rewrite orb_false_r. apply andb_false_iff.
    rewrite !Z.leb_gt. lia.
Qed.

(** ** The converter's filter *)

(** C10. [accept_atom] keeps an atom exactly in three cases: an ordinary
    residue with one of the twenty standard names; an ordinary residue named
    CYSP and an atom named N, CA, C, O, CB or SG; a heteroatom residue named
    ZN and an atom named ZN.  Waters and all other heteroatoms are dropped. *)
Theorem accept_atom_cases (a : Atom) :
  let r := get_parent a in
  (accept_atom a = true ↔
     (ordinary_residue r ∧ resname r ∈ standard_aa)
     ∨ (ordinary_residue r ∧ resname r = "CYSP"
        ∧ get_name a ∈ ["N"; "CA"; "C"; "O"; "CB"; "SG"])
     ∨ (hetero_residue r ∧ resname r = "ZN" ∧ get_name a = "ZN"))
  ∧ (water_residue r → accept_atom a = false)
  ∧ (hetero_residue r → ¬ (resname r = "ZN" ∧ get_name a = "ZN") →
     accept_atom a = false).
Proof.
  intros r. unfold accept_atom, ordinary_residue, water_residue, hetero_residue.
  fold r. set (hf := hetfield (get_id r)).
  destruct (String.eqb_spec hf " ") as [Hord | Hord].
  - assert (Hnh : ¬ ∃ t, hf = String "H" (String "_" t)).
    { intros [t Ht]. rewrite Hord in Ht. discriminate. }
    split; [|split].
    + destruct (str_in (resname r) standard_aa) eqn:Hstd.
      * apply str_in_spec in Hstd. intuition.
      * assert (resname r ∉ standard_aa) by (rewrite <- str_in_spec; congruence).
        destruct (String.eqb_spec (resname r) "CYSP") as [Hc | Hc].
        -- rewrite str_in_spec. split; [intuition|].
           intros [[_ ?] | [(_ & _ & ?) | (? & _)]]; done.
        -- split; [discriminate|].
           intros [[_ ?] | [(_ & ? & _) | (? & _)]]; done.
    + intros Hw. rewrite Hord in Hw. discriminate.
    + intros Hh. done.
  - destruct (String.prefix "H_" hf) eqn:Hpre.
    + apply prefix_H_spec in Hpre.
      split; [|split].
      * rewrite andb_true_iff.
        destruct (String.eqb_spec (resname r) "ZN"),
                 (String.eqb_spec (get_name a) "ZN"); split;
          try (intros [? ?]; discriminate); intuition.
      * intros Hw. destruct Hpre as [t Ht]. rewrite Hw in Ht. discriminate.
      * intros _ Hn. apply andb_false_iff.
        destruct (String.eqb_spec (resname r) "ZN"),
                 (String.eqb_spec (get_name a) "ZN"); intuition.
    + assert (Hnh : ¬ ∃ t, hf = String "H" (String "_" t)).
      { rewrite <- prefix_H_spec. congruence. }
      split; [|split]; [|done|done].
      split; [discriminate|]. intros [[? _] | [(? & _) | (? & _)]]; done.
Qed.

(** ** Dicts *)

Lemma eqb_bool_decide (x y : string) : String.eqb x y = bool_decide (x = y).
Proof.
  destruct (String.eqb_spec x y).
  - by rewrite bool_decide_eq_true_2.
  - by rewrite bool_decide_eq_false_2.
Qed.

Lemma dict_get_append {V} (d : Dict (list V)) (k k' : string) (x : V) :
  dict_get (dict_append d k x) k' =
  (fun l => if decide (k = k') then l ++ [x] else l) <$> dict_get d k'.
Proof.
  induction d as [|[k0 l] d IH]; simpl; [done|].
  destruct (String.eqb_spec k0 k) as [-> | Hk]; simpl.
  - destruct (String.eqb_spec k k') as [-> | Hk']; simpl.
    + by rewrite decide_True.
    + destruct (dict_get d k'); simpl; [|done]. by rewrite decide_False.
  - destruct (String.eqb_spec k0 k') as [-> | Hk']; simpl; [|done].
    by rewrite decide_False.
Qed.

Lemma dict_append_keys {V} (d : Dict (list V)) (k : string) (x : V) :
  fst <$> dict_append d k x = fst <$> d.
Proof.
  induction d as [|[k0 l] d IH]; csimpl; [done|].
  destruct (String.eqb k0 k); csimpl; [done | by rewrite IH].
Qed.

Lemma dict_get_Some_key {V} (d : Dict V) (k : string) (v : V) :
  dict_get d k = Some v → k ∈ fst <$> d.
Proof.
  induction d as [|[k0 v0] d IH]; csimpl; [done|].
  destruct (String.eqb_spec k0 k) as [-> | Hk]; intros H.
  - left.
  - right. auto.
Qed.

Lemma dict_get_is_Some {V} (d : Dict V) (k : string) :
  k ∈ fst <$> d → is_Some (dict_get d k).
Proof.
  induction d as [|[k0 v0] d IH]; csimpl; [inversion 1|].
  intros H. destruct (String.eqb_spec k0 k) as [-> | Hk]; [by eexists|].
  apply elem_of_cons in H as [-> | H]; [done | auto].
Qed.

(** ** Atom classification *)

Section AtomGroupsFacts.

Variable is_aa : Residue -> bool.
Variables loop_regs ec_regs ic_regs : Regions.

Local Abbreviation groups_of := (atom_groups is_aa loop_regs ec_regs ic_regs).
Local Abbreviation goes := (goes_to loop_regs ec_regs ic_regs).
Local Abbreviation share := (residue_share is_aa loop_regs ec_regs ic_regs).

Lemma classify_atom_get (resnum : Z) (d : Dict (list Atom)) (a : Atom) (k : string) :
  dict_get (classify_atom loop_regs ec_regs ic_regs resnum d a) k =
  (fun l => if goes k resnum a then l ++ [a] else l) <$> dict_get d k.
Proof.
  unfold classify_atom, classify_region, region_table, goes_to.
  rewrite !eqb_bool_decide. cbn [foldl fst snd].
  destruct (in_regions ic_regs resnum), (in_regions ec_regs resnum),
    (in_regions loop_regs resnum), (is_backbone_name (get_name a));
    rewrite ?dict_get_append; destruct (dict_get d k) as [l|];
    cbn [fmap option_fmap option_map]; try done; f_equal;
    repeat case_decide; simplify_eq; repeat case_bool_decide; simplify_eq; done.
Qed.

Lemma classify_atoms_get (resnum : Z) (atoms : list Atom) (d : Dict (list Atom))
    (k : string) :
  dict_get (foldl (classify_atom loop_regs ec_regs ic_regs resnum) d atoms) k =
  (fun l => l ++ filter (fun a => goes k resnum a) atoms) <$> dict_get d k.
Proof.
  revert d. induction atoms as [|a atoms IH]; intros d; simpl.
  - destruct (dict_get d k); simpl; [|done]. by rewrite app_nil_r.
  - rewrite IH, classify_atom_get, filter_cons.
    destruct (dict_get d k) as [l|]; simpl; [|done]. f_equal.
    destruct (goes k resnum a); simpl; [by rewrite <- app_assoc | done].
Qed.

Lemma classify_residue_get (d : Dict (list Atom)) (res : Residue) (k : string) :
  dict_get (classify_residue is_aa loop_regs ec_regs ic_regs d res) k =
  (fun l => l ++ share k res) <$> dict_get d k.
Proof.
  unfold classify_residue, residue_share. destruct (is_aa res); simpl.
  - apply classify_atoms_get.
  - destruct (dict_get d k); simpl; [|done]. by rewrite app_nil_r.
Qed.

Lemma classify_chain_get (chain : Chain) (d : Dict (list Atom)) (k : string) :
  dict_get (foldl (classify_residue is_aa loop_regs ec_regs ic_regs) d chain) k =
  (fun l => l ++ (chain ≫= share k)) <$> dict_get d k.
Proof.
  revert d. induction chain as [|res chain IH]; intros d; simpl.
  - destruct (dict_get d k); simpl; [|done]. by rewrite app_nil_r.
  - rewrite IH, classify_residue_get.
    destruct (dict_get d k) as [l|]; simpl; [|done]. by rewrite <- app_assoc.
Qed.

(** The list held under a group name is the chain's atoms of standard
    residues that go to that group, in chain order. *)
Lemma atom_groups_get (chain : Chain) (k : string) :
  k ∈ group_names →
  dict_get (groups_of chain) k = Some (chain ≫= share k).
Proof.
  intros Hk. unfold atom_groups. rewrite classify_chain_get.
  assert (dict_get empty_groups k = Some []) as ->; [|done].
  unfold group_names in Hk. set_unfold.
  destruct Hk as [-> | [-> | [-> | [-> | [-> | []]]]]]; reflexivity.
Qed.

Lemma atom_groups_keys (chain : Chain) :
  fst <$> groups_of chain = group_names.
Proof.
  unfold atom_groups.
  assert (∀ d, fst <$> foldl (classify_residue is_aa loop_regs ec_regs ic_regs) d chain
               = fst <$> d) as ->; [|done].
  induction chain as [|res chain IH]; intros d; simpl; [done|].
  rewrite IH. unfold classify_residue. destruct (is_aa res); simpl; [|done].
  generalize (residue_atoms res). intros atoms. revert d.
  induction atoms as [|a atoms IHa]; intros d; simpl; [done|].
  rewrite IHa. unfold classify_atom, classify_region. simpl.
  repeat match goal with
         | |- context [if ?b then _ else _] => destruct b
         end; by rewrite ?dict_append_keys.
Qed.

Lemma elem_of_residue_atoms (a : Atom) (res : Residue) :
  a ∈ residue_atoms res → get_parent a = res.
Proof.
  unfold residue_atoms. rewrite list_elem_of_fmap. by intros (nl & -> & _).
Qed.

Lemma elem_of_chain_share (chain : Chain) (k : string) (a : Atom) :
  a ∈ chain ≫= share k ↔
  a ∈ chain_get_atoms chain ∧ is_aa (get_parent a) = true
  ∧ goes k (resseq (get_id (get_parent a))) a = true.
Proof.
  unfold chain_get_atoms. rewrite !list_elem_of_bind. split.
  - intros (res & Ha & Hres). unfold residue_share in Ha.
    destruct (is_aa res) eqn:Haa; [|inversion Ha].
    apply list_elem_of_filter in Ha as [Hg Ha].
    pose proof (elem_of_residue_atoms _ _ Ha) as ->.
    split; [by exists res|]. split; [done|]. by apply Is_true_eq_true.
  - intros ((res & Ha & Hres) & Haa & Hg).
    pose proof (elem_of_residue_atoms _ _ Ha) as Hp. rewrite Hp in Haa, Hg.
    exists res. split; [|done]. unfold residue_share. rewrite Haa.
    apply list_elem_of_filter. split; [by apply Is_true_eq_left | done].
Qed.

End AtomGroupsFacts.

Lemma is_backbone_name_spec (n : string) :
  is_backbone_name n = true ↔ n ∈ ["N"; "CA"; "C"].
Proof.
  unfold is_backbone_name. rewrite !orb_true_iff. set_unfold.
  destruct (String.eqb_spec n "N"), (String.eqb_spec n "CA"),
    (String.eqb_spec n "C"); intuition congruence.
Qed.

(** C7. The list under ['backbone'] holds exactly the chain's atoms whose
    residue is a standard amino acid and whose name is N, CA or C; an atom
    named O of a standard residue is under ['all'] and not under
    ['backbone']. *)
Theorem backbone_group_members (is_aa : Residue -> bool)
    (loop_regs ec_regs ic_regs : Regions) (chain : Chain) :
  ∃ backbone all_,
    dict_get (atom_groups is_aa loop_regs ec_regs ic_regs chain) "backbone"
      = Some backbone
    ∧ dict_get (atom_groups is_aa loop_regs ec_regs ic_regs chain) "all"
      = Some all_
    ∧ (∀ a, a ∈ backbone ↔
            a ∈ chain_get_atoms chain ∧ is_aa (get_parent a) = true
            ∧ get_name a ∈ ["N"; "CA"; "C"])
    ∧ (∀ a, a ∈ chain_get_atoms chain → is_aa (get_parent a) = true →
            get_name a = "O" → a ∈ all_ ∧ a ∉ backbone).
Proof.
  eexists _, _.
  split; [apply atom_groups_get; unfold group_names; set_solver|].
  split; [apply atom_groups_get; unfold group_names; set_solver|].
  split.
  - intros a. rewrite elem_of_chain_share, <- is_backbone_name_spec.
    unfold goes_to. simpl. rewrite !orb_false_r. done.
  - intros a Ha Haa Hn. rewrite !elem_of_chain_share. split.
    + done.
    + intros (_ & _ & Hg). unfold goes_to in Hg. rewrite Hn in Hg.
      simpl in Hg. discriminate.
Qed.

(** C8. Atoms of residues that are not standard amino acids are in none of
    the five groups; an atom of a standard residue is put in the group of
    every region set that contains its residue number, so a residue lying in
    both the loop and the ec set is in both lists. *)
Theorem groups_exclude_nonstandard_allow_overlap (is_aa : Residue -> bool)
    (loop_regs ec_regs ic_regs : Regions) (chain : Chain) :
  let groups := atom_groups is_aa loop_regs ec_regs ic_regs chain in
  fst <$> groups = ["all"; "backbone"; "loop"; "ec"; "ic"]
  ∧ (∀ a, is_aa (get_parent a) = false →
          ∀ grp l, dict_get groups grp = Some l → a ∉ l)
  ∧ (∀ a, a ∈ chain_get_atoms chain → is_aa (get_parent a) = true →
          ∀ name regs, (name, regs) ∈ [("loop", loop_regs); ("ec", ec_regs);
                                        ("ic", ic_regs)] →
            in_regions regs (resseq (get_id (get_parent a))) = true →
            ∃ l, dict_get groups name = Some l ∧ a ∈ l).
Proof.
  intros groups. split; [apply atom_groups_keys|]. split.
  - intros a Hns grp l Hget Hin.
    assert (Hgrp : grp ∈ group_names).
    { rewrite <- (atom_groups_keys is_aa loop_regs ec_regs ic_regs chain).
      by eapply dict_get_Some_key. }
    unfold groups in Hget. rewrite atom_groups_get in Hget by done.
    injection Hget as <-. apply elem_of_chain_share in Hin as (_ & Haa & _).
    congruence.
  - intros a Ha Haa name regs Hnr Hreg.
    assert (Hcases : (name = "loop" ∧ regs = loop_regs)
                     ∨ (name = "ec" ∧ regs = ec_regs)
                     ∨ (name = "ic" ∧ regs = ic_regs)).
    { rewrite !elem_of_cons, elem_of_nil in Hnr.
      destruct Hnr as [H | [H | [H | []]]]; inversion H; auto. }
    assert (Hgrp : name ∈ group_names).
    { unfold group_names. rewrite !elem_of_cons.
      destruct Hcases as [[-> _] | [[-> _] | [-> _]]]; auto 10. }
    eexists. split; [by apply atom_groups_get|].
    apply elem_of_chain_share. split; [done|]. split; [done|].
    unfold goes_to.
    destruct Hcases as [[-> ->] | [[-> ->] | [-> ->]]];
      rewrite Hreg; simpl; by rewrite ?orb_true_r.
Qed.

(** ** Splitting and joining *)

Lemma join_cons2 (sep : ascii) (p q : string) (ps : list string) :
  join sep (p :: q :: ps) = String.append p (String sep (join sep (q :: ps))).
Proof. reflexivity. Qed.

Lemma py_split_not_nil (c : ascii) (s : string) : py_split c s ≠ [].
Proof.
  destruct s as [|x s]; simpl; [done|].
  destruct (Ascii.eqb x c); [done|]. by destruct (py_split c s).
Qed.

Lemma py_split_free (c : ascii) (t : string) :
  occurs c t = false → py_split c t = [t].
Proof.
  induction t as [|x t IH]; simpl; [done|].
  intros [Hx Ht]%orb_false_iff. rewrite Hx, IH by done. done.
Qed.

Lemma py_split_app (c : ascii) (t rest : string) :
  occurs c t = false →
  py_split c (String.append t (String c rest)) = t :: py_split c rest.
Proof.
  induction t as [|x t IH]; simpl.
  - intros _. by rewrite Ascii.eqb_refl.
  - intros [Hx Ht]%orb_false_iff. rewrite Hx, IH by done. done.
Qed.

Lemma py_split_join (c : ascii) (toks : list string) :
  toks ≠ [] → Forall (fun t => occurs c t = false) toks →
  py_split c (join c toks) = toks.
Proof.
  induction toks as [|t toks IH]; [done|]. intros _ Hfree.
  apply Forall_cons_1 in Hfree as [Ht Hfree].
  destruct toks as [|t' toks].
  - by apply py_split_free.
  - rewrite join_cons2, py_split_app by done. f_equal. by apply IH.
Qed.

Lemma join_py_split (c : ascii) (s : string) : join c (py_split c s) = s.
Proof.
  induction s as [|x s IH]; [done|]. simpl.
  pose proof (py_split_not_nil c s) as Hne.
  destruct (Ascii.eqb_spec x c) as [-> | Hx].
  - destruct (py_split c s) as [|p ps]; [done|].
    rewrite <- IH. reflexivity.
  - destruct (py_split c s) as [|p ps]; [done|].
    rewrite <- IH. by destruct ps.
Qed.

Lemma py_split_pieces_free (c : ascii) (s : string) :
  Forall (fun t => occurs c t = false) (py_split c s).
Proof.
  induction s as [|x s IH]; simpl.
  - by repeat constructor.
  - destruct (Ascii.eqb x c) eqn:Hx.
    + by constructor.
    + pose proof (py_split_not_nil c s).
      destruct (py_split c s) as [|p ps]; [done|].
      apply Forall_cons_1 in IH as [Hp Hps]. constructor; [|done].
      simpl. by rewrite Hx.
Qed.

(** ** parse_ranges *)

Section ParseRangesFacts.

Variable py_int : string -> option Z.

Local Abbreviation pair_of := (token_pair py_int).
Local Abbreviation ok := (token_ok py_int).

Lemma split_two (tok a b : string) :
  py_split hyphen tok = [a; b] ↔
  tok = String.append a (String hyphen b)
  ∧ occurs hyphen a = false ∧ occurs hyphen b = false.
Proof.
  split.
  - intros Hs. pose proof (py_split_pieces_free hyphen tok) as Hfree.
    rewrite Hs in Hfree.
    apply Forall_cons_1 in Hfree as [Ha Hfree].
    apply Forall_cons_1 in Hfree as [Hb _].
    split; [|done]. rewrite <- (join_py_split hyphen tok), Hs. done.
  - intros (-> & Ha & Hb). rewrite py_split_app by done.
    by rewrite py_split_free.
Qed.

(** The loop body either appends the token's pair or raises ValueError on
    a malformed token. *)
Lemma parse_part_cases (regions : Regions) (tok : string) :
  (∃ p, pair_of tok p ∧ parse_part py_int regions tok = Ok (regions ++ [p]))
  ∨ (¬ ok tok ∧ parse_part py_int regions tok = Raise ValueError).
Proof.
  unfold parse_part, token_ok.
  destruct (py_split hyphen tok) as [|a [|b [|c l]]] eqn:Hs; simpl;
    try (right; split; [|done]; intros (p & a' & b' & H & Ha & Hb & _);
         assert (Hs' : py_split hyphen tok = [a'; b']) by (by apply split_two);
         congruence).
  apply split_two in Hs as (Htok & Ha & Hb).
  assert (Huniq : ∀ a' b', tok = String.append a' (String hyphen b') →
            occurs hyphen a' = false → occurs hyphen b' = false →
            a' = a ∧ b' = b).
  { intros a' b' H1 H2 H3.
    assert (py_split hyphen tok = [a'; b']) as E1 by (by apply split_two).
    assert (py_split hyphen tok = [a; b]) as E2 by (by apply split_two).
    rewrite E1 in E2. by injection E2. }
  unfold int_of. destruct (py_int a) as [x|] eqn:Hx; simpl.
  - destruct (py_int b) as [y|] eqn:Hy; simpl.
    + left. exists (x, y). split; [|done]. by exists a, b.
    + right. split; [|done]. intros (p & a' & b' & H1 & H2 & H3 & _ & H5).
      destruct (Huniq a' b') as [-> ->]; congruence.
  - right. split; [|done]. intros (p & a' & b' & H1 & H2 & H3 & H4 & _).
    destruct (Huniq a' b') as [-> ->]; congruence.
Qed.

Lemma parse_loop_cases (toks : list string) (acc : Regions) :
  (∃ ps, Forall2 pair_of toks ps ∧ parse_loop py_int toks acc = Ok (acc ++ ps))
  ∨ ((∃ tok, tok ∈ toks ∧ ¬ ok tok)
     ∧ parse_loop py_int toks acc = Raise ValueError).
Proof.
  revert acc. induction toks as [|tok toks IH]; intros acc; simpl.
  - left. exists []. split; [constructor | by rewrite app_nil_r].
  - destruct (parse_part_cases acc tok) as [(p & Hp & ->) | [Hbad ->]]; simpl.
    + destruct (IH (acc ++ [p])) as [(ps & Hps & ->) | [(t & Ht & Hbad) ->]].
      * left. exists (p :: ps). split; [by constructor|].
        by rewrite <- app_assoc.
      * right. split; [|done]. exists t. split; [by right | done].
    + right. split; [|done]. exists tok. split; [by left | done].
Qed.

End ParseRangesFacts.

(** C6. A region string is its comma-separated tokens.  [parse_ranges]
    raises ValueError (the format error) exactly when some token is not of
    the shape integer, one hyphen, integer with both sides accepted by
    [int()]; otherwise it returns the pairs of the tokens, in token order. *)
Theorem parse_ranges_format_error (py_int : string -> option Z) (rangestr : string) :
  ∃ toks,
    (toks ≠ [] ∧ rangestr = join comma toks
     ∧ Forall (fun t => occurs comma t = false) toks)
    ∧ (∀ toks', toks' ≠ [] → rangestr = join comma toks' →
         Forall (fun t => occurs comma t = false) toks' → toks' = toks)
    ∧ (parse_ranges py_int rangestr = Raise ValueError ↔
       ∃ tok, tok ∈ toks ∧ ¬ token_ok py_int tok)
    ∧ (∀ e, parse_ranges py_int rangestr = Raise e → e = ValueError)
    ∧ (¬ (∃ tok, tok ∈ toks ∧ ¬ token_ok py_int tok) →
       ∃ regions, parse_ranges py_int rangestr = Ok regions
                  ∧ Forall2 (token_pair py_int) toks regions).
Proof.
  exists (py_split comma rangestr). split.
  { split; [apply py_split_not_nil|].
    split; [by rewrite join_py_split | apply py_split_pieces_free]. }
  split.
  { intros toks' Hne -> Hfree. symmetry. by apply py_split_join. }
  unfold parse_ranges.
  destruct (parse_loop_cases py_int (py_split comma rangestr) [])
    as [(ps & Hps & Hok) | [Hbad Hraise]].
  - rewrite Hok. simpl. split; [|split].
    + split; [discriminate|]. intros (tok & Htok & Hbad). exfalso.
      apply Hbad. apply list_elem_of_lookup in Htok as [i Hi].
      destruct (Forall2_lookup_l _ _ _ _ _ Hps Hi) as (p & _ & Hp).
      by exists p.
    + discriminate.
    + intros _. by exists ps.
  - rewrite Hraise. split; [|split].
    + done.
    + by intros e [= <-].
    + intros Hno. by destruct Hno.
Qed.

(** The docstring's example, and malformed strings. *)
Example parse_ranges_docstring :
  parse_ranges decimal_int "45-55,120-130" = Ok [(45, 55); (120, 130)].
Proof. reflexivity. Qed.

Example parse_ranges_malformed :
  parse_ranges decimal_int "45-55,120" = Raise ValueError
  ∧ parse_ranges decimal_int "1-2-3" = Raise ValueError
  ∧ parse_ranges decimal_int "" = Raise ValueError
  ∧ parse_ranges decimal_int "1-x" = Raise ValueError
  ∧ decimal_int "-5" = Some (-5)
  ∧ parse_ranges decimal_int "-5-10" = Raise ValueError.
Proof. repeat split; reflexivity. Qed.

(** ** Key maps *)

Lemma key_map_fold_lookup (atoms : list Atom) (m : gmap Key Atom) (k : Key) (a : Atom) :
  foldl (fun m a => <[atom_key a := a]> m) m atoms !! k = Some a →
  m !! k = Some a ∨ (a ∈ atoms ∧ atom_key a = k).
Proof.
  revert m. induction atoms as [|x atoms IH]; intros m; simpl; [by left|].
  intros [H | [H1 H2]]%IH.
  - apply lookup_insert_Some in H as [[<- <-] | [_ H]]; [right | by left].
    split; [left | done].
  - right. split; [by right | done].
Qed.

Lemma key_map_fold_dom (atoms : list Atom) (m : gmap Key Atom) :
  dom (foldl (fun m a => <[atom_key a := a]> m) m atoms)
  = dom m ∪ list_to_set (atom_key <$> atoms).
Proof.
  revert m. induction atoms as [|x atoms IH]; intros m; csimpl.
  - set_solver.
  - rewrite IH, dom_insert_L. set_solver.
Qed.

(** A key is mapped to an atom of the list that carries this key. *)
Lemma key_map_lookup (atoms : list Atom) (k : Key) (a : Atom) :
  key_map atoms !! k = Some a → a ∈ atoms ∧ atom_key a = k.
Proof.
  intros [H | H]%key_map_fold_lookup; [|done]. by rewrite lookup_empty in H.
Qed.

Lemma key_map_dom (atoms : list Atom) :
  dom (key_map atoms) = list_to_set (atom_key <$> atoms).
Proof. unfold key_map. rewrite key_map_fold_dom, dom_empty_L. set_solver. Qed.

Lemma mapR_lookup_ok (atoms : list Atom) (ks : list Key) :
  (∀ k, k ∈ ks → k ∈ dom (key_map atoms)) →
  ∃ l, mapR (fun k => lift_key (key_map atoms !! k)) ks = Ok l
       ∧ atom_key <$> l = ks ∧ (∀ a, a ∈ l → a ∈ atoms).
Proof.
  induction ks as [|k ks IH]; intros Hks; simpl.
  - exists []. split; [done|]. split; [done|]. inversion 1.
  - destruct (IH) as (l & -> & Hl & Hin).
    { intros k' Hk'. apply Hks. by right. }
    assert (Hk : k ∈ dom (key_map atoms)) by (apply Hks; left).
    apply elem_of_dom in Hk as [a Ha]. rewrite Ha. simpl.
    apply key_map_lookup in Ha as [Ha1 Ha2].
    exists (a :: l). split; [done|]. split; [csimpl; congruence|].
    intros a' [-> | H]%elem_of_cons; auto.
Qed.

Lemma atoms_for_ok (atoms : list Atom) (keys : gset Key) :
  keys ⊆ dom (key_map atoms) →
  ∃ l, atoms_for (key_map atoms) keys = Ok l
       ∧ atom_key <$> l = elements keys ∧ (∀ a, a ∈ l → a ∈ atoms).
Proof.
  intros Hsub. apply mapR_lookup_ok. intros k Hk%elem_of_elements. auto.
Qed.

Lemma size_list_to_set_dups (ks : list Key) :
  size (list_to_set ks : gset Key) = length (remove_dups ks).
Proof.
  rewrite <- (size_list_to_set (C := gset Key) (remove_dups ks))
    by apply NoDup_remove_dups.
  f_equal. apply set_eq. intros k.
  by rewrite !elem_of_list_to_set, elem_of_remove_dups.
Qed.

Lemma dict_set_fresh {V} (d : Dict V) (k : string) (v : V) :
  k ∉ fst <$> d → dict_set d k v = d ++ [(k, v)].
Proof.
  induction d as [|[k0 v0] d IH]; csimpl; [done|].
  intros [Hk Hd]%not_elem_of_cons.
  destruct (String.eqb_spec k0 k); [congruence|]. by rewrite IH.
Qed.

Lemma dict_get_snoc_fresh {V} (d : Dict V) (k : string) (v : V) :
  k ∉ fst <$> d → dict_get (d ++ [(k, v)]) k = Some v.
Proof.
  induction d as [|[k0 v0] d IH]; csimpl.
  - intros _. by rewrite String.eqb_refl.
  - intros [Hk Hd]%not_elem_of_cons.
    destruct (String.eqb_spec k0 k); [congruence | auto].
Qed.

(** ** More on dicts *)

Lemma dict_get_set_eq {V} (d : Dict V) (k : string) (v : V) :
  dict_get (dict_set d k v) k = Some v.
Proof.
  induction d as [|[k0 v0] d IH]; simpl.
  - by rewrite String.eqb_refl.
  - destruct (String.eqb_spec k0 k) as [-> | Hk]; simpl.
    + by rewrite String.eqb_refl.
    + by destruct (String.eqb_spec k0 k).
Qed.

Lemma dict_get_set_ne {V} (d : Dict V) (k k' : string) (v : V) :
  k ≠ k' → dict_get (dict_set d k v) k' = dict_get d k'.
Proof.
  intros Hne. induction d as [|[k0 v0] d IH]; simpl.
  - by destruct (String.eqb_spec k k').
  - destruct (String.eqb_spec k0 k) as [-> | Hk]; simpl.
    + by destruct (String.eqb_spec k k').
    + by destruct (String.eqb_spec k0 k').
Qed.

Lemma dict_get_elem {V} (d : Dict V) (k : string) (v : V) :
  NoDup (fst <$> d) → (k, v) ∈ d → dict_get d k = Some v.
Proof.
  induction d as [|[k0 v0] d IH]; csimpl; [inversion 2|].
  intros [Hk0 Hnd]%list.NoDup_cons [[= -> ->] | Hin]%elem_of_cons.
  - by rewrite String.eqb_refl.
  - destruct (String.eqb_spec k0 k) as [-> | Hk]; [|auto].
    exfalso. apply Hk0. by apply (list_elem_of_fmap_2 fst) in Hin.
Qed.

Lemma dict_get_Some_elem {V} (d : Dict V) (k : string) (v : V) :
  dict_get d k = Some v → (k, v) ∈ d.
Proof.
  induction d as [|[k0 v0] d IH]; simpl; [done|].
  destruct (String.eqb_spec k0 k) as [-> | Hk].
  - intros [= ->]. left.
  - intros H. right. auto.
Qed.

Lemma dict_get_absent {V} (d : Dict V) (k : string) :
  k ∉ fst <$> d → dict_get d k = None.
Proof.
  intros Hk. destruct (dict_get d k) eqn:E; [|done].
  by apply dict_get_Some_key in E.
Qed.

Lemma group_names_NoDup : NoDup group_names.
Proof. unfold group_names. repeat (constructor; [set_solver|]). constructor. Qed.

(** ** The pipeline *)

Section PipelineFacts.

Variables Coord RotTran Rms : Type.
Variable svd_fit : list Coord -> list Coord -> result (Rms * RotTran).
Variable transform : RotTran -> Coord -> Coord.
Variable fmt3 : Rms -> string.
Variable is_aa : Residue -> bool.
Variables loops ec ic : Regions.
Variables ref_chain cv_chain : Chain.

Local Abbreviation Store := (loc -> Coord).
Local Abbreviation refs := (ref_atoms is_aa loops ec ic ref_chain).
Local Abbreviation cvs := (cv_atoms is_aa loops ec ic cv_chain).
Local Abbreviation matched := (matched_atoms is_aa loops ec ic ref_chain cv_chain).
Local Abbreviation fit := (set_atoms Coord RotTran Rms svd_fit).
Local Abbreviation apply_all := (sup_apply Coord RotTran transform).
Local Abbreviation step :=
  (group_step Coord RotTran Rms svd_fit transform is_aa loops ec ic ref_chain cv_chain).
Local Abbreviation loop :=
  (for_groups Coord RotTran Rms svd_fit transform is_aa loops ec ic ref_chain cv_chain).
Local Abbreviation row := (write_row Rms fmt3 is_aa loops ec ic ref_chain).
Local Abbreviation run :=
  (main Coord RotTran Rms svd_fit transform fmt3 is_aa loops ec ic
     ref_chain cv_chain).
Local Abbreviation nkeys := (ref_key_count is_aa loops ec ic ref_chain).
Local Abbreviation cell_of := (rmsd_cell Rms fmt3).
Local Abbreviation rows_of :=
  (fmap (M := list)
     (fun item : string * option Rms =>
        (fst item, nkeys (fst item), cell_of (snd item)))).
Local Abbreviation keys_of := (fmap (M := list) atom_key).

Lemma sup_apply_other (rt : RotTran) (atoms : list Atom) (h : Store) (l : loc) :
  l ∉ coord_loc <$> atoms → apply_all rt atoms h l = h l.
Proof.
  unfold sup_apply. revert h.
  induction atoms as [|a atoms IH]; intros h; [done|].
  rewrite fmap_cons. intros [Hl Hn]%not_elem_of_cons. simpl.
  rewrite IH by done. unfold atom_transform. by rewrite fn_lookup_insert_ne.
Qed.

Lemma sup_apply_once (rt : RotTran) (atoms : list Atom) (h : Store) (a : Atom) :
  NoDup (coord_loc <$> atoms) → a ∈ atoms →
  apply_all rt atoms h (coord_loc a) = transform rt (h (coord_loc a)).
Proof.
  revert h. induction atoms as [|x atoms IH]; intros h; [inversion 2|].
  rewrite fmap_cons. intros [Hx Hnd]%list.NoDup_cons [-> | Ha]%elem_of_cons.
  - change (apply_all rt (x :: atoms) h)
      with (apply_all rt atoms (atom_transform Coord RotTran transform rt h x)).
    rewrite sup_apply_other by done.
    unfold atom_transform. by rewrite fn_lookup_insert.
  - change (apply_all rt (x :: atoms) h)
      with (apply_all rt atoms (atom_transform Coord RotTran transform rt h x)).
    rewrite IH by done.
    unfold atom_transform. rewrite fn_lookup_insert_ne; [done|].
    intros E. apply Hx. rewrite E. by apply list_elem_of_fmap_2.
Qed.

(** Matching never raises on one of the five groups; it gives nothing when
    the two sides share no key, and otherwise two lists that enumerate the
    shared keys in the same order. *)
Lemma matched_cases (grp : string) :
  grp ∈ group_names →
  ∃ ra ca,
    dict_get refs grp = Some ra ∧ dict_get cvs grp = Some ca
    ∧ let shared : gset Key :=
        list_to_set (atom_key <$> ra) ∩ list_to_set (atom_key <$> ca) in
      (shared = ∅ ∧ matched grp = Ok None)
      ∨ (shared ≠ ∅
         ∧ ∃ fixed moving,
             matched grp = Ok (Some (fixed, moving))
             ∧ atom_key <$> fixed = elements shared
             ∧ atom_key <$> moving = elements shared
             ∧ (∀ a, a ∈ fixed → a ∈ ra) ∧ (∀ a, a ∈ moving → a ∈ ca)).
Proof.
  intros Hgrp.
  destruct (dict_get_is_Some refs grp) as [ra Hra].
  { unfold ref_atoms. by rewrite atom_groups_keys. }
  destruct (dict_get_is_Some cvs grp) as [ca Hca].
  { unfold cv_atoms. by rewrite atom_groups_keys. }
  exists ra, ca. split; [done|]. split; [done|]. intros shared.
  unfold matched_atoms. rewrite Hra, Hca. simpl.
  rewrite !key_map_dom. fold shared.
  destruct (decide (shared = ∅)) as [He | Hne].
  - left. split; [done|]. by rewrite bool_decide_eq_true_2.
  - right. split; [done|]. rewrite bool_decide_eq_false_2 by done.
    destruct (atoms_for_ok ra shared) as (fixed & -> & Hf1 & Hf2).
    { rewrite key_map_dom. set_solver. }
    destruct (atoms_for_ok ca shared) as (moving & -> & Hm1 & Hm2).
    { rewrite key_map_dom. set_solver. }
    simpl. by exists fixed, moving.
Qed.

Lemma matched_total (grp : string) :
  grp ∈ group_names → ∃ m, matched grp = Ok m.
Proof.
  intros (ra & ca & _ & _ & [[_ H] | [_ (f & m & H & _)]])%matched_cases;
    eauto.
Qed.

Lemma group_of_dict_get (d : list Atom) (grp : string) :
  dict_get refs grp = Some d → grp ∈ group_names.
Proof.
  intros H%dict_get_Some_key. unfold ref_atoms in H.
  by rewrite atom_groups_keys in H.
Qed.

Lemma group_names_split (grp : string) :
  grp ∈ group_names →
  ∃ pre post, group_names = pre ++ grp :: post ∧ grp ∉ pre.
Proof.
  unfold group_names. rewrite !elem_of_cons, elem_of_nil.
  intros [-> | [-> | [-> | [-> | [-> | []]]]]].
  - exists [], ["backbone"; "loop"; "ec"; "ic"]. split; [done | inversion 1].
  - exists ["all"], ["loop"; "ec"; "ic"]. split; [done | set_solver].
  - exists ["all"; "backbone"], ["ec"; "ic"]. split; [done | set_solver].
  - exists ["all"; "backbone"; "loop"], ["ic"]. split; [done | set_solver].
  - exists ["all"; "backbone"; "loop"; "ec"], []. split; [done | set_solver].
Qed.

Lemma no_shared_key (ra ca : list Atom) :
  (∀ k, k ∈ atom_key <$> ra → k ∉ atom_key <$> ca) ↔
  (list_to_set (atom_key <$> ra) ∩ list_to_set (atom_key <$> ca) : gset Key) = ∅.
Proof.
  split.
  - intros H. apply set_eq. intros k.
    rewrite elem_of_intersection, !elem_of_list_to_set.
    split; [intros [? ?]; exfalso; by eapply H | set_solver].
  - intros H k Hr Hc.
    assert (k ∈ (∅ : gset Key)); [|set_solver].
    rewrite <- H, elem_of_intersection, !elem_of_list_to_set. done.
Qed.

(** With exactly one shared key, [set_atoms] is given one atom from each
    side, both carrying that key. *)
Lemma single_shared_key_lists (grp : string) (ra ca : list Atom) (k : Key) :
  dict_get refs grp = Some ra → dict_get cvs grp = Some ca →
  (∀ k', k' ∈ atom_key <$> ra ∧ k' ∈ atom_key <$> ca ↔ k' = k) →
  ∃ a b, matched grp = Ok (Some ([a], [b]))
         ∧ atom_key a = k ∧ atom_key b = k ∧ a ∈ ra ∧ b ∈ ca.
Proof.
  intros Hra Hca Hone.
  pose proof (group_of_dict_get _ _ Hra) as Hgrp.
  destruct (matched_cases grp Hgrp) as (ra' & ca' & Hra' & Hca' & Hcases).
  rewrite Hra in Hra'. rewrite Hca in Hca'. simplify_eq. cbv zeta in Hcases.
  assert (Hs : (list_to_set (atom_key <$> ra') ∩ list_to_set (atom_key <$> ca')
                : gset Key) = {[k]}).
  { apply set_eq. intros k'.
    rewrite elem_of_intersection, !elem_of_list_to_set, elem_of_singleton.
    apply Hone. }
  rewrite Hs in Hcases.
  destruct Hcases as [[He _] | [_ (f & m & Hm & Hf & Hm' & Hfa & Hma)]].
  - exfalso. assert (k ∈ (∅ : gset Key)) by (rewrite <- He; set_solver).
    set_solver.
  - rewrite elements_singleton in Hf, Hm'.
    destruct f as [|a [|a' f]]; csimpl in Hf; simplify_eq.
    destruct m as [|b [|b' m]]; csimpl in Hm'; simplify_eq.
    exists a, b. split; [done|]. split; [done|].
    split; [unfold atom_key; congruence|].
    split; [apply Hfa | apply Hma]; left.
Qed.

(** What matching gives, in terms of the two atom lists of the group. *)
Lemma matched_none_iff (grp : string) (ra ca : list Atom) :
  dict_get refs grp = Some ra → dict_get cvs grp = Some ca →
  (matched grp = Ok None ↔ ∀ k, k ∈ keys_of ra → k ∉ keys_of ca).
Proof.
  intros Hra Hca. rewrite no_shared_key.
  pose proof (group_of_dict_get _ _ Hra) as Hgrp.
  destruct (matched_cases grp Hgrp) as (ra' & ca' & Hra' & Hca' & Hcases).
  rewrite Hra in Hra'. rewrite Hca in Hca'. simplify_eq. cbv zeta in Hcases.
  destruct Hcases as [[He ->] | [Hne (f & m & -> & _)]]; split; done.
Qed.

Lemma matched_lists (grp : string) (ra ca fixed moving : list Atom) :
  dict_get refs grp = Some ra → dict_get cvs grp = Some ca →
  matched grp = Ok (Some (fixed, moving)) →
  fixed ≠ [] ∧ NoDup (keys_of fixed) ∧ keys_of moving = keys_of fixed
  ∧ (∀ k, k ∈ keys_of fixed ↔ k ∈ keys_of ra ∧ k ∈ keys_of ca)
  ∧ (∀ a, a ∈ fixed → a ∈ ra) ∧ (∀ a, a ∈ moving → a ∈ ca).
Proof.
  intros Hra Hca Hm.
  pose proof (group_of_dict_get _ _ Hra) as Hgrp.
  destruct (matched_cases grp Hgrp) as (ra' & ca' & Hra' & Hca' & Hcases).
  rewrite Hra in Hra'. rewrite Hca in Hca'. simplify_eq. cbv zeta in Hcases.
  destruct Hcases as [[_ H] | [Hne (f & m & H & Hf & Hm' & Hfa & Hma)]];
    rewrite Hm in H; simplify_eq.
  split.
  { intros ->. apply Hne. apply leibniz_equiv, elements_empty_inv.
    by rewrite <- Hf. }
  split; [rewrite Hf; apply NoDup_elements|].
  split; [congruence|]. split; [|done].
  intros k. by rewrite Hf, elem_of_elements, elem_of_intersection,
    !elem_of_list_to_set.
Qed.

Lemma matched_shared (grp : string) (ra ca : list Atom) (k : Key) :
  dict_get refs grp = Some ra → dict_get cvs grp = Some ca →
  k ∈ keys_of ra → k ∈ keys_of ca →
  ∃ fixed moving, matched grp = Ok (Some (fixed, moving)).
Proof.
  intros Hra Hca Hkr Hkc.
  pose proof (group_of_dict_get _ _ Hra) as Hgrp.
  destruct (matched_total grp Hgrp) as [[[f m]|] Hm]; [by exists f, m|].
  exfalso. by apply (proj1 (matched_none_iff grp ra ca Hra Hca) Hm k).
Qed.


(** One turn of the loop. *)
Lemma step_unmatched (h : Store) (res : Dict (option Rms)) (grp : string) :
  matched grp = Ok None → step (h, res) grp = Ok (h, dict_set res grp None).
Proof. intros Hm. unfold group_step. by rewrite Hm. Qed.

Lemma step_matched (h : Store) (res : Dict (option Rms)) (grp : string)
    (fixed moving : list Atom) :
  matched grp = Ok (Some (fixed, moving)) →
  step (h, res) grp
  = (sup ← fit h fixed moving;
     Ok (apply_all (snd sup) (chain_get_atoms cv_chain) h,
         dict_set res grp (Some (fst sup)))).
Proof. intros Hm. unfold group_step. by rewrite Hm. Qed.

Lemma step_inv (h h' : Store) (res res' : Dict (option Rms)) (grp : string) :
  step (h, res) grp = Ok (h', res') →
  (matched grp = Ok None ∧ h' = h ∧ res' = dict_set res grp None)
  ∨ (∃ fixed moving sup,
       matched grp = Ok (Some (fixed, moving)) ∧ fit h fixed moving = Ok sup
       ∧ h' = apply_all (snd sup) (chain_get_atoms cv_chain) h
       ∧ res' = dict_set res grp (Some (fst sup))).
Proof.
  unfold group_step. destruct (matched grp) as [[[f m]|]|e]; simpl; [| |done].
  - destruct (fit h f m) as [sup|e] eqn:Hfit; simpl; [|done].
    intros [= <- <-]. right. by exists f, m, sup.
  - intros [= <- <-]. by left.
Qed.

(** A turn raises only what the fit of its group raises. *)
Lemma step_raise (h : Store) (res : Dict (option Rms)) (grp : string) (e : exn) :
  grp ∈ group_names → step (h, res) grp = Raise e →
  ∃ fixed moving, matched grp = Ok (Some (fixed, moving))
                  ∧ fit h fixed moving = Raise e.
Proof.
  intros [m Hm]%matched_total. unfold group_step. rewrite Hm. simpl.
  destruct m as [[f mv]|]; [|done].
  destruct (fit h f mv) as [sup|e'] eqn:Hfit; simpl; [done|].
  intros [= ->]. by exists f, mv.
Qed.

Lemma for_groups_app (l1 l2 : list string) (st : Store * Dict (option Rms)) :
  loop (l1 ++ l2) st = loop l1 st ≫= loop l2.
Proof.
  revert st. induction l1 as [|g l1 IH]; intros st; simpl; [done|].
  destruct (step st g) as [st'|e]; simpl; [apply IH | done].
Qed.


Lemma loop_split (pre post : list string) (g : string)
    (st st' : Store * Dict (option Rms)) :
  loop (pre ++ g :: post) st = Ok st' →
  ∃ st1 st2, loop pre st = Ok st1 ∧ step st1 g = Ok st2 ∧ loop post st2 = Ok st'.
Proof.
  rewrite for_groups_app. destruct (loop pre st) as [st1|e]; simpl; [|done].
  destruct (step st1 g) as [st2|e] eqn:Hstep; simpl; [|done].
  intros H. by exists st1, st2.
Qed.

Lemma loop_results (grps : list string) (h h' : Store) (res res' : Dict (option Rms)) :
  loop grps (h, res) = Ok (h', res') → NoDup grps →
  (∀ g, g ∈ grps → g ∉ fst <$> res) →
  ∃ items, res' = res ++ items ∧ fst <$> items = grps.
Proof.
  revert h res. induction grps as [|g grps IH]; intros h res; simpl.
  - intros [= <- <-] _ _. exists []. by rewrite app_nil_r.
  - destruct (step (h, res) g) as [[h1 res1]|e] eqn:Hstep; simpl; [|done].
    intros Hloop [Hg Hnd]%list.NoDup_cons Hfresh.
    assert (Hres1 : ∃ r, res1 = res ++ [(g, r)]).
    { apply step_inv in Hstep as [(_ & _ & ->) | (f & m & sup & _ & _ & _ & ->)];
        eexists; apply dict_set_fresh; apply Hfresh; left. }
    destruct Hres1 as [r ->].
    destruct (IH _ _ Hloop Hnd) as (items & -> & Hkeys).
    { intros g' Hg'. rewrite fmap_app. csimpl.
      rewrite elem_of_app, list_elem_of_singleton.
      intros [H | ->]; [|done]. eapply Hfresh; [by right | done]. }
    exists ((g, r) :: items). split; [by rewrite <- app_assoc|].
    csimpl. by rewrite Hkeys.
Qed.

Lemma loop_get_other (grps : list string) (st st' : Store * Dict (option Rms))
    (g : string) :
  loop grps st = Ok st' → g ∉ grps → dict_get (snd st') g = dict_get (snd st) g.
Proof.
  revert st. induction grps as [|g0 grps IH]; intros [h res]; simpl.
  - by intros [= <-].
  - destruct (step (h, res) g0) as [[h1 res1]|e] eqn:Hstep; simpl; [|done].
    intros Hloop [Hne Hg]%not_elem_of_cons. rewrite (IH _ Hloop Hg). simpl.
    apply step_inv in Hstep as [(_ & _ & ->) | (f & m & sup & _ & _ & _ & ->)];
      by apply dict_get_set_ne.
Qed.

(** The loop writes no coordinate but those of the target chain's atoms. *)
Lemma loop_frame (grps : list string) (st st' : Store * Dict (option Rms)) (l : loc) :
  loop grps st = Ok st' → l ∉ coord_loc <$> chain_get_atoms cv_chain →
  fst st' l = fst st l.
Proof.
  intros Hloop Hl. revert st Hloop.
  induction grps as [|g grps IH]; intros [h res]; simpl.
  - by intros [= <-].
  - destruct (step (h, res) g) as [[h1 res1]|e] eqn:Hstep; simpl; [|done].
    intros Hloop. rewrite (IH _ Hloop). simpl.
    apply step_inv in Hstep as [(_ & -> & _) | (f & m & sup & _ & _ & -> & _)];
      [done | by apply sup_apply_other].
Qed.

(** The loop raises only what some fit raises. *)
Lemma loop_raise (grps : list string) (st : Store * Dict (option Rms)) (e : exn) :
  (∀ g, g ∈ grps → g ∈ group_names) → loop grps st = Raise e →
  ∃ g h fixed moving, g ∈ grps ∧ matched g = Ok (Some (fixed, moving))
                      ∧ fit h fixed moving = Raise e.
Proof.
  revert st. induction grps as [|g grps IH]; intros [h res] Hin; simpl; [done|].
  destruct (step (h, res) g) as [st1|e'] eqn:Hstep; simpl.
  - intros Hloop. destruct (IH st1) as (g' & h' & f & m & Hg' & Hm & Hfit); [|done|].
    + intros g' ?. apply Hin. by right.
    + exists g', h', f, m. split; [by right | done].
  - intros [= ->]. apply step_raise in Hstep as (f & m & Hm & Hfit).
    + exists g, h, f, m. split; [left | done].
    + apply Hin. left.
Qed.

Lemma write_rows_run (items : Dict (option Rms)) :
  (∀ g, g ∈ fst <$> items → g ∈ group_names) →
  mapR row items = Ok (rows_of items).
Proof.
  induction items as [|[g r] items IH]; intros Hin; csimpl; [done|].
  rewrite IH by (intros g' ?; apply Hin; by right).
  unfold write_row, ref_key_count, rmsd_cell. simpl.
  destruct (dict_get_is_Some refs g) as [ra Hra].
  { unfold ref_atoms. rewrite atom_groups_keys. apply Hin. left. }
  rewrite Hra. simpl. by rewrite size_list_to_set_dups.
Qed.

(** The run returns what the loop returns, with the rows of [results]. *)
Lemma main_inv (h0 h : Store) (results : Dict (option Rms))
    (rows : list (string * nat * string)) :
  run h0 = Ok (h, results, rows) →
  loop group_names (h0, []) = Ok (h, results)
  ∧ fst <$> results = group_names ∧ rows = rows_of results.
Proof.
  unfold main, ref_atoms. rewrite atom_groups_keys.
  destruct (loop group_names (h0, [])) as [[h1 res1]|e] eqn:Hloop;
    cbn [mbind result_bind fst snd]; [|done].
  destruct (loop_results _ _ _ _ _ Hloop group_names_NoDup) as (items & -> & Hkeys).
  { intros g _. inversion 1. }
  rewrite write_rows_run by (intros g; simpl; by rewrite Hkeys).
  cbn [mbind result_bind]. by intros [= <- <- <-].
Qed.

Lemma main_of_loop (h0 h : Store) (results : Dict (option Rms)) :
  loop group_names (h0, []) = Ok (h, results) →
  run h0 = Ok (h, results, rows_of results).
Proof.
  intros Hloop. unfold main, ref_atoms. rewrite atom_groups_keys, Hloop.
  cbn [mbind result_bind fst snd].
  destruct (loop_results _ _ _ _ _ Hloop group_names_NoDup) as (items & -> & Hkeys).
  { intros g _. inversion 1. }
  by rewrite write_rows_run by (intros g; simpl; by rewrite Hkeys).
Qed.

(** The run raises only what some fit raises. *)
Lemma main_raise (h0 : Store) (e : exn) :
  run h0 = Raise e →
  ∃ g h fixed moving, g ∈ group_names ∧ matched g = Ok (Some (fixed, moving))
                      ∧ fit h fixed moving = Raise e.
Proof.
  intros Hrun. destruct (loop group_names (h0, [])) as [[h res]|e'] eqn:Hloop.
  - apply main_of_loop in Hloop. congruence.
  - assert (e' = e) as ->.
    { unfold main, ref_atoms in Hrun. rewrite atom_groups_keys, Hloop in Hrun.
      simpl in Hrun. congruence. }
    by apply (loop_raise group_names (h0, []) e).
Qed.

(** The turn of one group inside a run that returns. *)
Lemma run_at_split (h0 h : Store) (results : Dict (option Rms))
    (rows : list (string * nat * string)) (pre post : list string) (grp : string) :
  group_names = pre ++ grp :: post → run h0 = Ok (h, results, rows) →
  ∃ h_in res_in h_out res_out,
    loop pre (h0, []) = Ok (h_in, res_in)
    ∧ step (h_in, res_in) grp = Ok (h_out, res_out)
    ∧ loop (pre ++ [grp]) (h0, []) = Ok (h_out, res_out)
    ∧ loop post (h_out, res_out) = Ok (h, results)
    ∧ dict_get results grp = dict_get res_out grp.
Proof.
  intros Hsplit (Hloop & _ & _)%main_inv. rewrite Hsplit in Hloop.
  destruct (loop_split _ _ _ _ _ Hloop)
    as ([h_in res_in] & [h_out res_out] & Hpre & Hstep & Hpost).
  exists h_in, res_in, h_out, res_out.
  split; [done|]. split; [done|].
  split; [rewrite for_groups_app, Hpre; simpl; by rewrite Hstep|].
  split; [done|].
  apply (loop_get_other _ _ _ grp Hpost).
  pose proof group_names_NoDup as Hnd. rewrite Hsplit in Hnd.
  apply list.NoDup_app in Hnd as (_ & _ & [Hg _]%list.NoDup_cons). done.
Qed.

(** The entry of a group in the [results] of a run that returns. *)
Lemma entry_cases (h0 h : Store) (results : Dict (option Rms))
    (rows : list (string * nat * string)) (grp : string) :
  run h0 = Ok (h, results, rows) → grp ∈ group_names →
  (matched grp = Ok None ∧ dict_get results grp = Some None)
  ∨ (∃ h' fixed moving sup,
       matched grp = Ok (Some (fixed, moving)) ∧ fit h' fixed moving = Ok sup
       ∧ dict_get results grp = Some (Some (fst sup))).
Proof.
  intros Hrun (pre & post & Hsplit & _)%group_names_split.
  destruct (run_at_split _ _ _ _ _ _ _ Hsplit Hrun)
    as (h_in & res_in & h_out & res_out & _ & Hstep & _ & _ & ->).
  apply step_inv in Hstep as [(Hm & _ & ->) | (f & m & sup & Hm & Hfit & _ & ->)];
    rewrite dict_get_set_eq.
  - by left.
  - right. by exists h_in, f, m, sup.
Qed.

Lemma row_of_entry (h0 h : Store) (results : Dict (option Rms))
    (rows : list (string * nat * string)) (grp : string) (r : option Rms) :
  run h0 = Ok (h, results, rows) → dict_get results grp = Some r →
  (grp, nkeys grp, cell_of r) ∈ rows.
Proof.
  intros (_ & _ & ->)%main_inv Hget%dict_get_Some_elem.
  apply list_elem_of_fmap. by exists (grp, r).
Qed.

Lemma entry_of_row (h0 h : Store) (results : Dict (option Rms))
    (rows : list (string * nat * string)) (grp : string) (n : nat) (cell : string) :
  run h0 = Ok (h, results, rows) → (grp, n, cell) ∈ rows →
  ∃ r, grp ∈ group_names ∧ dict_get results grp = Some r
       ∧ n = nkeys grp ∧ cell = cell_of r.
Proof.
  intros (_ & Hkeys & ->)%main_inv ([g r] & [= -> -> ->] & Hitem)%list_elem_of_fmap.
  exists r. cbn [fst snd]. split.
  { rewrite <- Hkeys. by apply (list_elem_of_fmap_2 fst) in Hitem. }
  split; [|done]. apply dict_get_elem; [|done].
  rewrite Hkeys. apply group_names_NoDup.
Qed.

(** C4. A group whose reference and target atoms share no key raises
    nothing in its turn: the store is left as it is, [None] is recorded and
    the loop goes on with the next group.  A run that returns has an entry
    and a row for each of the five groups in order, this group's rmsd
    written as ['NA']; a run that raises does so in the fit of another
    group. *)
Theorem empty_match_is_not_an_error (grp : string) (ra ca : list Atom) :
  dict_get refs grp = Some ra → dict_get cvs grp = Some ca →
  (∀ k, k ∈ keys_of ra → k ∉ keys_of ca) →
  (∀ h res, step (h, res) grp = Ok (h, dict_set res grp None))
  ∧ (∀ rest h res,
       loop (grp :: rest) (h, res) = loop rest (h, dict_set res grp None))
  ∧ ∀ h0,
      match run h0 with
      | Ok (h, results, rows) =>
          fst <$> results = ["all"; "backbone"; "loop"; "ec"; "ic"]
          ∧ (fun r => fst (fst r)) <$> rows = ["all"; "backbone"; "loop"; "ec"; "ic"]
          ∧ dict_get results grp = Some None
          ∧ ∃ n, (grp, n, "NA") ∈ rows
      | Raise e =>
          ∃ g h fixed moving,
            g ≠ grp ∧ matched g = Ok (Some (fixed, moving))
            ∧ fit h fixed moving = Raise e
      end.
Proof.
  intros Hra Hca Hno.
  pose proof (group_of_dict_get _ _ Hra) as Hgrp.
  assert (Hm : matched grp = Ok None) by (by apply (matched_none_iff grp ra ca)).
  split; [intros h res; by apply step_unmatched|].
  split; [intros rest h res; simpl; by rewrite step_unmatched|].
  intros h0. destruct (run h0) as [[[h results] rows]|e] eqn:Hrun.
  - pose proof (main_inv _ _ _ _ Hrun) as (_ & Hkeys & Hrows).
    split; [done|]. split.
    { rewrite Hrows, <- list_fmap_compose. exact Hkeys. }
    destruct (entry_cases _ _ _ _ grp Hrun Hgrp)
      as [[_ Hget] | (h' & f & m & sup & Hm' & _)]; [|congruence].
    split; [done|]. exists (nkeys grp).
    apply (row_of_entry _ _ _ _ _ _ Hrun Hget).
  - destruct (main_raise _ _ Hrun) as (g & h & f & m & _ & Hm' & Hfit).
    exists g, h, f, m. split; [|done]. intros ->. congruence.
Qed.


(** C9. For a group with a shared key, the two atom lists given to
    [set_atoms] exist and come from one iteration order of the shared keys:
    both enumerate exactly the shared keys, once each, they have the same
    length, and at every index the reference atom and the target atom carry
    the same key. *)
Theorem fit_lists_share_key_order (grp : string) (ra ca : list Atom) (k : Key) :
  dict_get refs grp = Some ra → dict_get cvs grp = Some ca →
  k ∈ keys_of ra → k ∈ keys_of ca →
  ∃ fixed moving,
    matched grp = Ok (Some (fixed, moving))
    ∧ (∀ h res,
         step (h, res) grp
         = (sup ← fit h fixed moving;
            Ok (apply_all (snd sup) (chain_get_atoms cv_chain) h,
                dict_set res grp (Some (fst sup)))))
    ∧ NoDup (keys_of fixed)
    ∧ (∀ k', k' ∈ keys_of fixed ↔ k' ∈ keys_of ra ∧ k' ∈ keys_of ca)
    ∧ (∀ a, a ∈ fixed → a ∈ ra) ∧ (∀ a, a ∈ moving → a ∈ ca)
    ∧ length fixed = length moving
    ∧ (∀ i, (i < length fixed)%nat →
            ∃ a b, fixed !! i = Some a ∧ moving !! i = Some b
                   ∧ atom_key a = atom_key b).
Proof.
  intros Hra Hca Hkr Hkc.
  destruct (matched_shared grp ra ca k Hra Hca Hkr Hkc) as (f & m & Hm).
  destruct (matched_lists grp ra ca f m Hra Hca Hm)
    as (_ & Hnd & Hkeys & Henum & Hfa & Hma).
  exists f, m. split; [done|].
  split; [intros h res; by apply step_matched|].
  split; [done|]. split; [done|]. split; [done|]. split; [done|].
  assert (Hlen : length f = length m).
  { apply (f_equal length) in Hkeys. by rewrite !length_fmap in Hkeys. }
  split; [done|].
  intros i Hi.
  destruct (lookup_lt_is_Some_2 f i Hi) as [a Ha].
  destruct (lookup_lt_is_Some_2 m i) as [b Hb]; [by rewrite <- Hlen|].
  exists a, b. split; [done|]. split; [done|].
  apply (f_equal (fun l => l !! i)) in Hkeys.
  rewrite !list_lookup_fmap, Ha, Hb in Hkeys. simpl in Hkeys. congruence.
Qed.


(** C3. Given the engine's answer on one matched point (it does not fail
    and its RMSD is written 0.000), a group whose reference and target
    atoms share exactly one key raises nothing in its turn and records that
    RMSD; in a run that returns its row shows 0.000, and a run that raises
    does so in the fit of another group. *)
Theorem single_shared_key_reports_zero (grp : string) (ra ca : list Atom) (k : Key) :
  one_point_fit Coord RotTran Rms svd_fit fmt3 →
  dict_get refs grp = Some ra → dict_get cvs grp = Some ca →
  (∀ k', k' ∈ keys_of ra ∧ k' ∈ keys_of ca ↔ k' = k) →
  (∀ h res, ∃ sup,
     step (h, res) grp
     = Ok (apply_all (snd sup) (chain_get_atoms cv_chain) h,
           dict_set res grp (Some (fst sup)))
     ∧ fmt3 (fst sup) = "0.000")
  ∧ ∀ h0,
      match run h0 with
      | Ok (h, results, rows) =>
          ∃ rms, dict_get results grp = Some (Some rms)
                 ∧ (grp, length (remove_dups (keys_of ra)), "0.000") ∈ rows
      | Raise e =>
          ∃ g h fixed moving,
            g ≠ grp ∧ matched g = Ok (Some (fixed, moving))
            ∧ fit h fixed moving = Raise e
      end.
Proof.
  intros Hone Hra Hca Hkey.
  pose proof (group_of_dict_get _ _ Hra) as Hgrp.
  destruct (single_shared_key_lists grp ra ca k Hra Hca Hkey)
    as (a & b & Hm & _).
  assert (Hfit : ∀ h, ∃ sup, fit h [a] [b] = Ok sup ∧ fmt3 (fst sup) = "0.000").
  { intros h. apply (Hone (get_coord Coord h a) (get_coord Coord h b)). }
  split.
  - intros h res. destruct (Hfit h) as (sup & Hsup & Hfmt). exists sup.
    split; [|done]. rewrite (step_matched h res grp [a] [b] Hm), Hsup. done.
  - intros h0. destruct (run h0) as [[[h results] rows]|e] eqn:Hrun.
    + destruct (entry_cases _ _ _ _ grp Hrun Hgrp)
        as [[Hm' _] | (h' & f & m & sup & Hm' & Hsup & Hget)]; [congruence|].
      rewrite Hm in Hm'. injection Hm' as <- <-.
      destruct (Hfit h') as (sup' & Hsup' & Hfmt).
      rewrite Hsup in Hsup'. injection Hsup' as <-.
      exists (fst sup). split; [done|].
      pose proof (row_of_entry _ _ _ _ _ _ Hrun Hget) as Hrow.
      unfold ref_key_count, rmsd_cell in Hrow. unfold ref_atoms in *.
      by rewrite Hra, Hfmt in Hrow.
    + destruct (main_raise _ _ Hrun) as (g & h & f & m & _ & Hm' & Hraise).
      exists g, h, f, m. split; [|done]. intros ->.
      rewrite Hm in Hm'. injection Hm' as <- <-.
      destruct (Hfit h) as (sup & Hsup & _). congruence.
Qed.

End PipelineFacts.

(** ** The sample run *)

Example sample_run :
  match Sample.run with
  | Ok (h, results, rows) =>
      results = [("all", Some 7%nat); ("backbone", Some 6%nat);
                 ("loop", Some 3%nat); ("ec", Some 0%nat); ("ic", None)]
      ∧ rows = [("all", 16%nat, "some"); ("backbone", 12%nat, "some");
                ("loop", 8%nat, "some"); ("ec", 4%nat, "0.000");
                ("ic", 4%nat, "NA")]
      ∧ h <$> [0; 16; 100; 108]%nat = [0; 16; 120; 128]
  | Raise _ => False
  end.
Proof. vm_compute. done. Qed.

(** With an engine that fails, the run stops in the first fit and no row is
    written. *)
Example sample_run_failing_fit :
  main Z Z nat Sample.failing_fit Sample.toy_transform Sample.toy_fmt Sample.std
    Sample.loops Sample.ec Sample.ic Sample.ref_chain Sample.cv_chain Sample.h0
  = Raise LinAlgError.
Proof. reflexivity. Qed.

(** Facts on the sample data used below. *)
Lemma sample_target_locs_distinct :
  NoDup (coord_loc <$> chain_get_atoms Sample.cv_chain).
Proof. apply (bool_decide_unpack _). vm_compute. exact I. Defined.


Lemma sample_group_lists (grp : string) :
  grp ∈ group_names →
  dict_get (ref_atoms Sample.std Sample.loops Sample.ec Sample.ic Sample.ref_chain) grp
  = Some (Sample.groups_of Sample.ref_chain grp)
  ∧ dict_get (cv_atoms Sample.std Sample.loops Sample.ec Sample.ic Sample.cv_chain) grp
    = Some (Sample.groups_of Sample.cv_chain grp).
Proof.
  unfold group_names. rewrite !elem_of_cons, elem_of_nil.
  intros [-> | [-> | [-> | [-> | [-> | []]]]]]; split; vm_compute; reflexivity.
Defined.

Lemma sample_ic_unmatched (k : Key) :
  k ∈ atom_key <$> Sample.groups_of Sample.ref_chain "ic" →
  k ∉ atom_key <$> Sample.groups_of Sample.cv_chain "ic".
Proof.
  revert k. apply list.Forall_forall. apply (bool_decide_unpack _).
  vm_compute. exact I.
Defined.

Lemma sample_ec_one_key (k : Key) :
  k ∈ atom_key <$> Sample.groups_of Sample.ref_chain "ec"
  ∧ k ∈ atom_key <$> Sample.groups_of Sample.cv_chain "ec"
  ↔ k = (3, "CA").
Proof.
  assert (E : atom_key <$> Sample.groups_of Sample.cv_chain "ec" = [(3, "CA")])
    by (vm_compute; reflexivity).
  rewrite E, list_elem_of_singleton. split; [by intros [_ ?]|].
  intros ->. split; [|done]. apply (bool_decide_unpack _). vm_compute. exact I.
Defined.

Lemma sample_toy_one_point : one_point_fit Z Z nat Sample.toy_fit Sample.toy_fmt.
Proof. intros r c. by exists (0%nat, 1). Defined.

(** The ic group of the sample has reference atoms and no target atom. *)
Lemma empty_match_is_not_an_error_witness :
  let step := group_step Z Z nat Sample.toy_fit Sample.toy_transform Sample.std
                Sample.loops Sample.ec Sample.ic Sample.ref_chain Sample.cv_chain in
  let loop := for_groups Z Z nat Sample.toy_fit Sample.toy_transform Sample.std
                Sample.loops Sample.ec Sample.ic Sample.ref_chain Sample.cv_chain in
  let run := main Z Z nat Sample.toy_fit Sample.toy_transform Sample.toy_fmt
               Sample.std Sample.loops Sample.ec Sample.ic Sample.ref_chain
               Sample.cv_chain in
  let ra := Sample.groups_of Sample.ref_chain "ic" in
  let ca := Sample.groups_of Sample.cv_chain "ic" in
  (ra ≠ [] ∧ ∀ k, k ∈ atom_key <$> ra → k ∉ atom_key <$> ca)
  ∧ (∀ h res, step (h, res) "ic" = Ok (h, dict_set res "ic" None))
  ∧ (∀ rest h res,
       loop ("ic" :: rest) (h, res) = loop rest (h, dict_set res "ic" None))
  ∧ ∀ h0,
      match run h0 with
      | Ok (h, results, rows) =>
          fst <$> results = ["all"; "backbone"; "loop"; "ec"; "ic"]
          ∧ (fun r => fst (fst r)) <$> rows = ["all"; "backbone"; "loop"; "ec"; "ic"]
          ∧ dict_get results "ic" = Some None
          ∧ ∃ n, ("ic", n, "NA") ∈ rows
      | Raise e =>
          ∃ g h fixed moving,
            g ≠ "ic"
            ∧ matched_atoms Sample.std Sample.loops Sample.ec Sample.ic
                Sample.ref_chain Sample.cv_chain g = Ok (Some (fixed, moving))
            ∧ set_atoms Z Z nat Sample.toy_fit h fixed moving = Raise e
      end.
Proof.
  intros step loop run ra ca.
  split; [split; [by vm_compute | exact sample_ic_unmatched]|].
  exact (empty_match_is_not_an_error Z Z nat Sample.toy_fit Sample.toy_transform
           Sample.toy_fmt Sample.std Sample.loops Sample.ec Sample.ic
           Sample.ref_chain Sample.cv_chain "ic" ra ca
           (proj1 (sample_group_lists "ic" ltac:(unfold group_names; set_solver)))
           (proj2 (sample_group_lists "ic" ltac:(unfold group_names; set_solver)))
           sample_ic_unmatched).
Defined.

(** The backbone group of the sample: the key of residue 1's N is shared. *)
Lemma fit_lists_share_key_order_witness :
  let ra := Sample.groups_of Sample.ref_chain "backbone" in
  let ca := Sample.groups_of Sample.cv_chain "backbone" in
  ((1, "N") ∈ atom_key <$> ra ∧ (1, "N") ∈ atom_key <$> ca)
  ∧ ∃ fixed moving,
      matched_atoms Sample.std Sample.loops Sample.ec Sample.ic
        Sample.ref_chain Sample.cv_chain "backbone" = Ok (Some (fixed, moving))
      ∧ (∀ h res,
           group_step Z Z nat Sample.toy_fit Sample.toy_transform Sample.std
             Sample.loops Sample.ec Sample.ic Sample.ref_chain Sample.cv_chain
             (h, res) "backbone"
           = (sup ← set_atoms Z Z nat Sample.toy_fit h fixed moving;
              Ok (sup_apply Z Z Sample.toy_transform (snd sup)
                    (chain_get_atoms Sample.cv_chain) h,
                  dict_set res "backbone" (Some (fst sup)))))
      ∧ NoDup (atom_key <$> fixed)
      ∧ (∀ k', k' ∈ atom_key <$> fixed ↔
               k' ∈ atom_key <$> ra ∧ k' ∈ atom_key <$> ca)
      ∧ (∀ a, a ∈ fixed → a ∈ ra) ∧ (∀ a, a ∈ moving → a ∈ ca)
      ∧ length fixed = length moving
      ∧ (∀ i, (i < length fixed)%nat →
              ∃ a b, fixed !! i = Some a ∧ moving !! i = Some b
                     ∧ atom_key a = atom_key b).
Proof.
  intros ra ca.
  assert (Hr : (1, "N") ∈ atom_key <$> ra)
    by (apply (bool_decide_unpack _); vm_compute; exact I).
  assert (Hc : (1, "N") ∈ atom_key <$> ca)
    by (apply (bool_decide_unpack _); vm_compute; exact I).
  split; [by split|].
  exact (fit_lists_share_key_order Z Z nat Sample.toy_fit Sample.toy_transform
           Sample.std Sample.loops Sample.ec Sample.ic Sample.ref_chain
           Sample.cv_chain "backbone" ra ca (1, "N")
           (proj1 (sample_group_lists "backbone" ltac:(unfold group_names; set_solver)))
           (proj2 (sample_group_lists "backbone" ltac:(unfold group_names; set_solver)))
           Hr Hc).
Defined.


(** The ec group of the sample: the only shared key is the CA of residue 3. *)
Lemma single_shared_key_reports_zero_witness :
  let ra := Sample.groups_of Sample.ref_chain "ec" in
  let ca := Sample.groups_of Sample.cv_chain "ec" in
  one_point_fit Z Z nat Sample.toy_fit Sample.toy_fmt
  ∧ (∀ k', k' ∈ atom_key <$> ra ∧ k' ∈ atom_key <$> ca ↔ k' = (3, "CA"))
  ∧ (∀ h res, ∃ sup,
       group_step Z Z nat Sample.toy_fit Sample.toy_transform Sample.std
         Sample.loops Sample.ec Sample.ic Sample.ref_chain Sample.cv_chain
         (h, res) "ec"
       = Ok (sup_apply Z Z Sample.toy_transform (snd sup)
               (chain_get_atoms Sample.cv_chain) h,
             dict_set res "ec" (Some (fst sup)))
       ∧ Sample.toy_fmt (fst sup) = "0.000")
  ∧ ∀ h0,
      match main Z Z nat Sample.toy_fit Sample.toy_transform Sample.toy_fmt
              Sample.std Sample.loops Sample.ec Sample.ic Sample.ref_chain
              Sample.cv_chain h0 with
      | Ok (h, results, rows) =>
          ∃ rms, dict_get results "ec" = Some (Some rms)
                 ∧ ("ec", length (remove_dups (atom_key <$> ra)), "0.000") ∈ rows
      | Raise e =>
          ∃ g h fixed moving,
            g ≠ "ec"
            ∧ matched_atoms Sample.std Sample.loops Sample.ec Sample.ic
                Sample.ref_chain Sample.cv_chain g = Ok (Some (fixed, moving))
            ∧ set_atoms Z Z nat Sample.toy_fit h fixed moving = Raise e
      end.
Proof.
  intros ra ca.
  split; [exact sample_toy_one_point|].
  split; [exact sample_ec_one_key|].
  exact (single_shared_key_reports_zero Z Z nat Sample.toy_fit Sample.toy_transform
           Sample.toy_fmt Sample.std Sample.loops Sample.ec Sample.ic
           Sample.ref_chain Sample.cv_chain "ec" ra ca (3, "CA")
           sample_toy_one_point
           (proj1 (sample_group_lists "ec" ltac:(unfold group_names; set_solver)))
           (proj2 (sample_group_lists "ec" ltac:(unfold group_names; set_solver)))
           sample_ec_one_key).
Defined.
(** * Further properties of the code *)

(** ** Region sets as unions *)

Lemma in_regions_true_iff (regs : Regions) (n : Z) :
  in_regions regs n = true ↔ ∃ se, se ∈ regs ∧ fst se ≤ n ≤ snd se.
Proof.
  unfold in_regions. induction regs as [|se regs IH]; simpl.
  - split; [discriminate|]. intros (se & H & _). inversion H.
  - rewrite orb_true_iff, IH, andb_true_iff, !Z.leb_le. split.
    + intros [H | (se' & H & Hn)].
      * exists se. split; [left | done].
      * exists se'. split; [by right | done].
    + intros (se' & [-> | H]%elem_of_cons & Hn); [by left|].
      right. by exists se'.
Qed.

(** X1. A region list acts as the union of its intervals: the test on a
    concatenation is the disjunction of the tests, and two lists with the
    same intervals (in any order, with any repetition) give the same test. *)
Theorem in_regions_union_order (r1 r2 : Regions) (n : Z) :
  in_regions (r1 ++ r2) n = in_regions r1 n || in_regions r2 n
  ∧ ((∀ se, se ∈ r1 ↔ se ∈ r2) → in_regions r1 n = in_regions r2 n).
Proof.
  split.
  - unfold in_regions. apply existsb_app.
  - intros Hsame. apply eq_true_iff_eq. rewrite !in_regions_true_iff.
    split; intros (se & H & Hn); exists se; (split; [by apply Hsame | done]).
Qed.

(** ** Counting separators *)

Lemma py_split_length (c : ascii) (s : string) :
  length (py_split c s) = S (count_char c s).
Proof.
  induction s as [|x s IH]; simpl; [done|].
  destruct (Ascii.eqb x c); simpl; [by rewrite IH|].
  pose proof (py_split_not_nil c s).
  destruct (py_split c s) as [|p ps]; [done|]. simpl in *. lia.
Qed.

Lemma count_char_append (c : ascii) (s t : string) :
  count_char c (String.append s t) = (count_char c s + count_char c t)%nat.
Proof.
  induction s as [|x s IH]; [done|].
  change (String.append (String x s) t) with (String x (String.append s t)).
  simpl. rewrite IH. by destruct (Ascii.eqb x c).
Qed.

Lemma occurs_count (c : ascii) (s : string) :
  occurs c s = false ↔ count_char c s = O.
Proof.
  induction s as [|x s IH]; simpl; [done|].
  destruct (Ascii.eqb x c); simpl; [split; discriminate | done].
Qed.

(** In a joined string, a character other than the separator occurs as
    often as in the pieces together. *)
Lemma count_char_join (c sep : ascii) (toks : list string) :
  c ≠ sep →
  count_char c (join sep toks) = sum_list (count_char c <$> toks).
Proof.
  intros Hne. induction toks as [|t toks IH]; [done|].
  destruct toks as [|t' toks].
  - simpl. unfold join. simpl. lia.
  - rewrite join_cons2, count_char_append. csimpl in *.
    destruct (Ascii.eqb_spec sep c); [congruence|]. by rewrite IH.
Qed.

Lemma token_pair_one_hyphen (py_int : string -> option Z) (tok : string) (p : Z * Z) :
  token_pair py_int tok p → count_char hyphen tok = 1%nat.
Proof.
  intros (a & b & -> & Ha%occurs_count & Hb%occurs_count & _).
  rewrite count_char_append. simpl. rewrite Ha, Hb. done.
Qed.

Lemma parse_ranges_ok_tokens (py_int : string -> option Z) (s : string) (rs : Regions) :
  parse_ranges py_int s = Ok rs →
  Forall2 (token_pair py_int) (py_split comma s) rs.
Proof.
  unfold parse_ranges. intros Hok.
  destruct (parse_loop_cases py_int (py_split comma s) [])
    as [(ps & Hps & H) | [_ H]]; rewrite H in Hok; [|done].
  by injection Hok as <-.
Qed.

Lemma parse_ranges_bad_token (py_int : string -> option Z) (s tok : string) :
  tok ∈ py_split comma s → ¬ token_ok py_int tok →
  parse_ranges py_int s = Raise ValueError.
Proof.
  unfold parse_ranges. intros Htok Hbad.
  destruct (parse_loop_cases py_int (py_split comma s) [])
    as [(ps & Hps & _) | [_ H]]; [|done].
  exfalso. apply Hbad. apply list_elem_of_lookup in Htok as [i Hi].
  destruct (Forall2_lookup_l _ _ _ _ _ Hps Hi) as (p & _ & Hp). by exists p.
Qed.

(** X2. A successful parse returns one pair per token: the number of pairs
    is the number of commas plus one (so never zero), and the string holds
    exactly one hyphen per pair. *)
Theorem parse_ranges_counts (py_int : string -> option Z) (s : string) (rs : Regions) :
  parse_ranges py_int s = Ok rs →
  length rs = S (count_char comma s) ∧ count_char hyphen s = length rs.
Proof.
  intros Hps%parse_ranges_ok_tokens.
  pose proof Hps as Hlen. apply Forall2_length in Hlen.
  rewrite py_split_length in Hlen. split; [done|].
  rewrite <- (join_py_split comma s) at 1.
  rewrite count_char_join by done. rewrite <- Hlen, <- py_split_length.
  clear Hlen. induction Hps as [|tok p toks ps Hp _ IH]; [done|].
  csimpl. by rewrite (token_pair_one_hyphen _ _ _ Hp), IH.
Qed.

Lemma parse_ranges_counts_witness :
  parse_ranges decimal_int "45-55,120-130" = Ok [(45, 55); (120, 130)]
  ∧ length [(45, 55); (120, 130)] = S (count_char comma "45-55,120-130")
  ∧ count_char hyphen "45-55,120-130" = length [(45, 55); (120, 130)].
Proof.
  split; [reflexivity|].
  exact (parse_ranges_counts decimal_int "45-55,120-130" [(45, 55); (120, 130)]
           eq_refl).
Defined.

(** ** Empty tokens *)

Lemma py_split_append_sep (c : ascii) (s t : string) :
  py_split c (String.append s (String c t)) = py_split c s ++ py_split c t.
Proof.
  induction s as [|x s IH].
  - simpl. by rewrite Ascii.eqb_refl.
  - change (String.append (String x s) (String c t))
      with (String x (String.append s (String c t))).
    simpl. rewrite IH. destruct (Ascii.eqb x c); [done|].
    pose proof (py_split_not_nil c s). by destruct (py_split c s).
Qed.

Lemma empty_token_bad (py_int : string -> option Z) : ¬ token_ok py_int "".
Proof. intros (p & a & b & H & _). by destruct a. Qed.

(** X3. A string with an empty token is rejected whatever [int()] accepts:
    the empty string, a trailing comma, a leading comma, two commas in a
    row. *)
Theorem parse_ranges_empty_token (py_int : string -> option Z) (s t : string) :
  parse_ranges py_int "" = Raise ValueError
  ∧ parse_ranges py_int (String.append s ",") = Raise ValueError
  ∧ parse_ranges py_int (String "," s) = Raise ValueError
  ∧ parse_ranges py_int (String.append s (String "," (String "," t)))
    = Raise ValueError.
Proof.
  split; [|split; [|split]].
  - reflexivity.
  - apply (parse_ranges_bad_token _ _ ""); [|apply empty_token_bad].
    change "," with (String comma ""). rewrite py_split_append_sep.
    apply elem_of_app. right. left.
  - apply (parse_ranges_bad_token _ _ ""); [|apply empty_token_bad]. left.
  - apply (parse_ranges_bad_token _ _ ""); [|apply empty_token_bad].
    change (String "," (String "," t)) with (String comma (String comma t)).
    rewrite py_split_append_sep. apply elem_of_app. right. left.
Qed.

(** ** Bounds are not compared *)

(** X4. A token whose first bound exceeds the second is parsed like any
    other, and the region it gives contains no residue number. *)
Theorem reversed_range_matches_nothing (py_int : string -> option Z)
    (a b : string) (x y : Z) :
  occurs comma a = false → occurs hyphen a = false →
  occurs comma b = false → occurs hyphen b = false →
  py_int a = Some x → py_int b = Some y → y < x →
  parse_ranges py_int (String.append a (String hyphen b)) = Ok [(x, y)]
  ∧ ∀ n, in_regions [(x, y)] n = false.
Proof.
  intros Hca Hha Hcb Hhb Hx Hy Hlt. split.
  - unfold parse_ranges. rewrite py_split_free.
    + simpl. unfold parse_part. rewrite py_split_app, py_split_free by done.
      simpl. unfold int_of. by rewrite Hx, Hy.
    + apply occurs_count. rewrite count_char_append. simpl.
      apply occurs_count in Hca, Hcb. by rewrite Hca, Hcb.
  - intros n. unfold in_regions. simpl. rewrite orb_false_r.
    apply andb_false_iff. rewrite !Z.leb_gt. lia.
Qed.

Lemma reversed_range_matches_nothing_witness :
  parse_ranges decimal_int "9-3" = Ok [(9, 3)]
  ∧ ∀ n, in_regions [(9, 3)] n = false.
Proof.
  exact (reversed_range_matches_nothing decimal_int "9" "3" 9 3
           eq_refl eq_refl eq_refl eq_refl eq_refl eq_refl eq_refl).
Defined.

(** ** The guard on region arguments *)

(** X5. A region argument yields the empty region list exactly when it is
    the empty string; [parse_ranges] itself never returns an empty list and
    rejects the empty string. *)
Theorem region_arg_empty_only (py_int : string -> option Z) (arg : string) :
  (region_arg py_int arg = Ok [] ↔ arg = "")
  ∧ parse_ranges py_int arg ≠ Ok []
  ∧ (arg ≠ "" → region_arg py_int arg = parse_ranges py_int arg).
Proof.
  assert (Hne : parse_ranges py_int arg ≠ Ok []).
  { intros Hps%parse_ranges_ok_tokens. apply Forall2_length in Hps.
    rewrite py_split_length in Hps. done. }
  split; [|split; [done|]].
  - split; [|by intros ->]. destruct arg; [done|]. intros H. by destruct Hne.
  - by destruct arg.
Qed.

(** ** Groups as filters of the chain *)

Section GroupShape.

Variable is_aa : Residue -> bool.
Variables loop_regs ec_regs ic_regs : Regions.

Local Abbreviation groups_of := (atom_groups is_aa loop_regs ec_regs ic_regs).
Local Abbreviation goes := (goes_to loop_regs ec_regs ic_regs).
Local Abbreviation share := (residue_share is_aa loop_regs ec_regs ic_regs).

Lemma filter_all_true (l : list Atom) (P : Atom -> bool) :
  (∀ a, a ∈ l → P a = true) → filter (fun a => P a) l = l.
Proof.
  induction l as [|x l IH]; intros H; [done|].
  rewrite filter_cons, (H x) by left. simpl. f_equal.
  apply IH. intros a Ha. apply H. by right.
Qed.

Lemma residue_share_filter (k : string) (res : Residue) :
  share k res =
  filter (fun a => goes k (resseq (get_id (get_parent a))) a)
    (filter (fun a => is_aa (get_parent a)) (residue_atoms res)).
Proof.
  unfold residue_share, residue_atoms.
  induction (child_list res) as [|nl cl IH]; csimpl.
  - by destruct (is_aa res).
  - rewrite !filter_cons. simpl. destruct (is_aa res) eqn:Haa; simpl.
    + rewrite filter_cons. simpl. by rewrite IH.
    + done.
Qed.

Lemma chain_share_filter (k : string) (chain : Chain) :
  chain ≫= share k =
  filter (fun a => goes k (resseq (get_id (get_parent a))) a)
    (filter (fun a => is_aa (get_parent a)) (chain_get_atoms chain)).
Proof.
  unfold chain_get_atoms. induction chain as [|res chain IH]; [done|].
  rewrite !bind_cons, !list.filter_app, IH, residue_share_filter. done.
Qed.

(** X6. The list under ['all'] is the chain's atoms with a standard parent,
    in chain order; each other list is the ['all'] list filtered by the
    group's test, so order and repetitions are kept. *)
Theorem groups_are_filters_of_all (chain : Chain) :
  let resnum := fun a => resseq (get_id (get_parent a)) in
  let all_ := filter (fun a => is_aa (get_parent a)) (chain_get_atoms chain) in
  dict_get (groups_of chain) "all" = Some all_
  ∧ dict_get (groups_of chain) "backbone"
    = Some (filter (fun a => is_backbone_name (get_name a)) all_)
  ∧ dict_get (groups_of chain) "loop"
    = Some (filter (fun a => in_regions loop_regs (resnum a)) all_)
  ∧ dict_get (groups_of chain) "ec"
    = Some (filter (fun a => in_regions ec_regs (resnum a)) all_)
  ∧ dict_get (groups_of chain) "ic"
    = Some (filter (fun a => in_regions ic_regs (resnum a)) all_).
Proof.
  intros resnum all_.
  assert (Hin : ∀ k, k ∈ group_names →
            dict_get (groups_of chain) k
            = Some (filter (fun a => goes k (resnum a) a) all_)).
  { intros k Hk. rewrite atom_groups_get by done. by rewrite chain_share_filter. }
  unfold group_names in Hin.
  split; [|split; [|split; [|split]]].
  - rewrite Hin by set_solver. apply (f_equal Some). by apply filter_all_true.
  - rewrite Hin by set_solver. apply (f_equal Some). apply list_filter_iff. intros a.
    unfold goes_to. simpl. by rewrite !orb_false_r.
  - rewrite Hin by set_solver. apply (f_equal Some). apply list_filter_iff. intros a.
    unfold goes_to. simpl. by rewrite !orb_false_r.
  - rewrite Hin by set_solver. apply (f_equal Some). apply list_filter_iff. intros a.
    unfold goes_to. simpl. by rewrite !orb_false_r.
  - rewrite Hin by set_solver. apply (f_equal Some). apply list_filter_iff. intros a.
    unfold goes_to. by simpl.
Qed.

Lemma dict_get_None_key {V} (d : Dict V) (k : string) :
  k ∉ fst <$> d → dict_get d k = None.
Proof.
  intros Hk. destruct (dict_get d k) eqn:E; [|done].
  by apply dict_get_Some_key in E.
Qed.

(** X7. Classification is residue by residue: the groups of a chain made of
    two parts are, name by name, the groups of the first part followed by
    the groups of the second. *)
Theorem atom_groups_app (c1 c2 : Chain) (k : string) :
  dict_get (groups_of (c1 ++ c2)) k
  = (l1 ← dict_get (groups_of c1) k;
     l2 ← dict_get (groups_of c2) k;
     Some (l1 ++ l2)).
Proof.
  destruct (decide (k ∈ group_names)) as [Hk | Hk].
  - rewrite !atom_groups_get by done. simpl. by rewrite bind_app.
  - by rewrite !dict_get_None_key by (by rewrite atom_groups_keys).
Qed.

End GroupShape.

(** ** Duplicate keys *)

Lemma key_map_fold_last (atoms : list Atom) (m : gmap Key Atom) (k : Key) :
  foldl (fun m a => <[atom_key a := a]> m) m atoms !! k
  = match list.last (filter (fun a => atom_key a = k) atoms) with
    | Some a => Some a
    | None => m !! k
    end.
Proof.
  revert m. induction atoms as [|x atoms IH]; intros m; [done|].
  simpl. rewrite IH, filter_cons. destruct (decide (atom_key x = k)) as [Hk | Hk].
  - rewrite last_cons.
    destruct (list.last (filter (fun a => atom_key a = k) atoms)); [done|].
    by rewrite Hk, lookup_insert_eq.
  - destruct (list.last (filter (fun a => atom_key a = k) atoms)); [done|].
    by rewrite lookup_insert_ne.
Qed.

(** X8. A key map sends each key to the last atom of the list that carries
    it: among atoms with the same residue number and name (alternate
    residues that differ only in insertion code or hetero field, say) the
    later one silently replaces the earlier. *)
Theorem key_map_last_wins (atoms : list Atom) (k : Key) :
  key_map atoms !! k = list.last (filter (fun a => atom_key a = k) atoms).
Proof.
  unfold key_map. rewrite key_map_fold_last, lookup_empty.
  by destruct (list.last _).
Qed.


(** ** More on the run *)

Section RunFacts.

Variables Coord RotTran Rms : Type.
Variable svd_fit : list Coord -> list Coord -> result (Rms * RotTran).
Variable transform : RotTran -> Coord -> Coord.
Variable fmt3 : Rms -> string.
Variable is_aa : Residue -> bool.
Variables loops ec ic : Regions.
Variables ref_chain cv_chain : Chain.

Local Abbreviation Store := (loc -> Coord).
Local Abbreviation refs := (ref_atoms is_aa loops ec ic ref_chain).
Local Abbreviation cvs := (cv_atoms is_aa loops ec ic cv_chain).
Local Abbreviation matched := (matched_atoms is_aa loops ec ic ref_chain cv_chain).
Local Abbreviation fit := (set_atoms Coord RotTran Rms svd_fit).
Local Abbreviation step :=
  (group_step Coord RotTran Rms svd_fit transform is_aa loops ec ic ref_chain cv_chain).
Local Abbreviation loop :=
  (for_groups Coord RotTran Rms svd_fit transform is_aa loops ec ic ref_chain cv_chain).
Local Abbreviation run :=
  (main Coord RotTran Rms svd_fit transform fmt3 is_aa loops ec ic
     ref_chain cv_chain).
Local Abbreviation nkeys := (ref_key_count is_aa loops ec ic ref_chain).
Local Abbreviation cell_of := (rmsd_cell Rms fmt3).
Local Abbreviation rows_of :=
  (fmap (M := list)
     (fun item : string * option Rms =>
        (fst item, nkeys (fst item), cell_of (snd item)))).
Local Abbreviation keys_of := (fmap (M := list) atom_key).
Local Abbreviation fit_raised e :=
  (∃ g h fixed moving,
     g ∈ group_names ∧ matched g = Ok (Some (fixed, moving))
     ∧ fit h fixed moving = Raise e).

Lemma group_atoms_in_all (chain : Chain) (grp : string) (l : list Atom) :
  dict_get (atom_groups is_aa loops ec ic chain) grp = Some l →
  ∃ all_, dict_get (atom_groups is_aa loops ec ic chain) "all" = Some all_
          ∧ ∀ a, a ∈ l → a ∈ all_.
Proof.
  intros Hl.
  assert (Hgrp : grp ∈ group_names).
  { apply dict_get_Some_key in Hl. by rewrite atom_groups_keys in Hl. }
  rewrite atom_groups_get in Hl by done. injection Hl as <-.
  eexists. split; [apply atom_groups_get; unfold group_names; set_solver|].
  intros a (Ha & Haa & _)%elem_of_chain_share.
  apply elem_of_chain_share. by repeat split.
Qed.

Lemma ref_key_count_le_all (grp : string) :
  grp ∈ group_names → (nkeys grp ≤ nkeys "all")%nat.
Proof.
  intros Hgrp. unfold ref_key_count.
  destruct (dict_get_is_Some refs grp) as [l Hl].
  { unfold ref_atoms. by rewrite atom_groups_keys. }
  destruct (group_atoms_in_all ref_chain grp l Hl) as (all_ & Hall & Hsub).
  unfold ref_atoms in *. rewrite Hl, Hall. simpl.
  rewrite <- !size_list_to_set_dups. apply subseteq_size.
  intros k. rewrite !elem_of_list_to_set, !list_elem_of_fmap.
  intros (a & -> & Ha). exists a. split; [done | by apply Hsub].
Qed.

(** X9. In a run that returns there is a row for ['all'], and no row
    counts more atoms than it. *)
Theorem n_atoms_bounded_by_all (h0 : Store) :
  match run h0 with
  | Ok (h, results, rows) =>
      ∃ n_all cell_all,
        ("all", n_all, cell_all) ∈ rows
        ∧ ∀ grp n cell, (grp, n, cell) ∈ rows → (n ≤ n_all)%nat
  | Raise e => fit_raised e
  end.
Proof.
  destruct (run h0) as [[[h results] rows]|e] eqn:Hrun;
    [|exact (main_raise _ _ _ _ _ _ _ _ _ _ _ _ _ _ Hrun)].
  pose proof (main_inv _ _ _ _ _ _ _ _ _ _ _ _ _ _ _ _ Hrun) as (_ & Hkeys & _).
  destruct (dict_get_is_Some results "all") as [r Hall].
  { rewrite Hkeys. unfold group_names. set_solver. }
  exists (nkeys "all"), (cell_of r).
  split; [exact (row_of_entry _ _ _ _ _ _ _ _ _ _ _ _ _ _ _ _ _ _ Hrun Hall)|].
  intros grp n cell Hrow.
  destruct (entry_of_row _ _ _ _ _ _ _ _ _ _ _ _ _ _ _ _ _ _ _ Hrun Hrow)
    as (r' & Hgrp & _ & -> & _).
  by apply ref_key_count_le_all.
Qed.

Lemma group_unmatched_if_all_unmatched (grp : string) :
  grp ∈ group_names → matched "all" = Ok None → matched grp = Ok None.
Proof.
  intros Hgrp Hnone.
  destruct (dict_get_is_Some refs grp) as [ra Hra].
  { unfold ref_atoms. by rewrite atom_groups_keys. }
  destruct (dict_get_is_Some cvs grp) as [ca Hca].
  { unfold cv_atoms. by rewrite atom_groups_keys. }
  destruct (group_atoms_in_all ref_chain grp ra Hra) as (ra0 & Hra0 & Hrsub).
  destruct (group_atoms_in_all cv_chain grp ca Hca) as (ca0 & Hca0 & Hcsub).
  apply (matched_none_iff is_aa loops ec ic ref_chain cv_chain grp ra ca Hra Hca).
  pose proof (proj1 (matched_none_iff is_aa loops ec ic ref_chain cv_chain
                       "all" ra0 ca0 Hra0 Hca0) Hnone) as Hno.
  intros k (a & -> & Ha)%list_elem_of_fmap (b & Hk & Hb)%list_elem_of_fmap.
  apply (Hno (atom_key a)).
  - apply list_elem_of_fmap. exists a. split; [done | by apply Hrsub].
  - apply list_elem_of_fmap. exists b. split; [done | by apply Hcsub].
Qed.

Lemma loop_unmatched (grps : list string) (h : Store) (res : Dict (option Rms)) :
  (∀ g, g ∈ grps → matched g = Ok None) → NoDup grps →
  (∀ g, g ∈ grps → g ∉ fst <$> res) →
  loop grps (h, res) = Ok (h, res ++ ((fun g => (g, None)) <$> grps)).
Proof.
  revert res. induction grps as [|g grps IH]; intros res Hall Hnd Hfresh.
  - simpl. by rewrite app_nil_r.
  - apply list.NoDup_cons in Hnd as [Hg Hnd]. simpl.
    rewrite (step_unmatched Coord RotTran Rms svd_fit transform is_aa loops ec ic
               ref_chain cv_chain h res g) by (apply Hall; left).
    simpl. rewrite dict_set_fresh by (apply Hfresh; left).
    rewrite IH; [by rewrite <- app_assoc | | done |].
    + intros g' ?. apply Hall. by right.
    + intros g' Hg'. rewrite fmap_app. csimpl.
      rewrite elem_of_app, list_elem_of_singleton.
      intros [H | ->]; [|done]. eapply Hfresh; [by right | done].
Qed.

(** X10. If the ['all'] lists of the two chains share no key then no fit is
    made at all: the run returns the store it was given, every entry of
    [results] is [None] and every rmsd cell is ['NA'], whatever the engine
    would do. *)
Theorem unmatched_all_means_nothing_done (ra ca : list Atom) (h0 : Store) :
  dict_get refs "all" = Some ra → dict_get cvs "all" = Some ca →
  (∀ k, k ∈ keys_of ra → k ∉ keys_of ca) →
  ∃ rows,
    run h0 = Ok (h0, (fun g => (g, None)) <$> group_names, rows)
    ∧ (fun r => fst (fst r)) <$> rows = ["all"; "backbone"; "loop"; "ec"; "ic"]
    ∧ ∀ grp n cell, (grp, n, cell) ∈ rows → cell = "NA".
Proof.
  intros Hra Hca Hno.
  assert (Hnone : matched "all" = Ok None).
  { by apply (matched_none_iff is_aa loops ec ic ref_chain cv_chain "all" ra ca). }
  assert (Hloop : loop group_names (h0, [])
                  = Ok (h0, (fun g => (g, None)) <$> group_names)).
  { rewrite loop_unmatched; [done | | apply group_names_NoDup |].
    - intros g Hg. by apply group_unmatched_if_all_unmatched.
    - intros g _. inversion 1. }
  eexists. split; [exact (main_of_loop _ _ _ _ _ _ _ _ _ _ _ _ _ _ _ Hloop)|].
  split; [done|].
  intros grp n cell ([g r] & [= -> -> ->] & Hitem)%list_elem_of_fmap.
  by apply list_elem_of_fmap in Hitem as (g' & [= -> ->] & _).
Qed.

(** X11. A run that returns has written no coordinate but those of the
    target chain's atoms: the reference, and anything else in the store,
    keeps its value. *)
Theorem run_writes_only_target_chain (h0 : Store) :
  match run h0 with
  | Ok (h, results, rows) =>
      ∀ l, l ∉ coord_loc <$> chain_get_atoms cv_chain → h l = h0 l
  | Raise e => fit_raised e
  end.
Proof.
  destruct (run h0) as [[[h results] rows]|e] eqn:Hrun;
    [|exact (main_raise _ _ _ _ _ _ _ _ _ _ _ _ _ _ Hrun)].
  pose proof (main_inv _ _ _ _ _ _ _ _ _ _ _ _ _ _ _ _ Hrun) as (Hloop & _ & _).
  intros l Hl.
  exact (loop_frame _ _ _ _ _ _ _ _ _ _ _ _ _ _ _ Hloop Hl).
Qed.

Lemma moves_compose (grps : list string) (h h' : Store) (res res' : Dict (option Rms)) :
  NoDup (coord_loc <$> chain_get_atoms cv_chain) →
  loop grps (h, res) = Ok (h', res') → NoDup grps →
  (∀ g, g ∈ grps → g ∉ fst <$> res) →
  ∃ rts,
    (length (filter (fun it => is_Some (snd it))
               (res' : list (string * option Rms)))
     = length (filter (fun it => is_Some (snd it))
                 (res : list (string * option Rms))) + length rts)%nat
    ∧ ∀ a, a ∈ chain_get_atoms cv_chain →
           h' (coord_loc a)
           = foldl (fun c rt => transform rt c) (h (coord_loc a)) rts.
Proof.
  intros Hlocs. revert h res. induction grps as [|g grps IH]; intros h res; simpl.
  - intros [= <- <-] _ _. exists []. split; [simpl; lia | done].
  - destruct (step (h, res) g) as [[h1 res1]|e] eqn:Hstep; simpl; [|done].
    intros Hloop [Hg Hnd]%list.NoDup_cons Hfresh.
    assert (Hfresh1 : ∀ r g', g' ∈ grps → g' ∉ fst <$> res ++ [(g, r)]).
    { intros r g' Hg'. rewrite fmap_app. csimpl.
      rewrite elem_of_app, list_elem_of_singleton.
      intros [H | ->]; [|done]. eapply Hfresh; [by right | done]. }
    apply step_inv in Hstep as [(_ & -> & ->) | (f & m & sup & _ & _ & -> & ->)];
      rewrite dict_set_fresh in Hloop by (apply Hfresh; left);
      destruct (IH _ _ Hloop Hnd (Hfresh1 _)) as (rts & Hlen & Hrts);
      rewrite list.filter_app in Hlen; rewrite length_app in Hlen.
    + exists rts. split; [simpl in Hlen; lia | done].
    + exists (snd sup :: rts). split; [simpl in *; lia|].
      intros a Ha. rewrite Hrts by done. simpl. by rewrite sup_apply_once.
Qed.

(** X12. When the target atoms are distinct objects, a run that returns
    leaves each of them at its initial coordinate moved by one transform per
    group that was fitted, the same transforms for all atoms, in group
    order. *)
Theorem target_moved_once_per_fit (h0 : Store) :
  NoDup (coord_loc <$> chain_get_atoms cv_chain) →
  match run h0 with
  | Ok (h, results, rows) =>
      ∃ rts,
        length rts
        = length (filter (fun it => is_Some (snd it))
                    (results : list (string * option Rms)))
        ∧ ∀ a, a ∈ chain_get_atoms cv_chain →
               h (coord_loc a)
               = foldl (fun c rt => transform rt c) (h0 (coord_loc a)) rts
  | Raise e => fit_raised e
  end.
Proof.
  intros Hnd. destruct (run h0) as [[[h results] rows]|e] eqn:Hrun;
    [|exact (main_raise _ _ _ _ _ _ _ _ _ _ _ _ _ _ Hrun)].
  pose proof (main_inv _ _ _ _ _ _ _ _ _ _ _ _ _ _ _ _ Hrun) as (Hloop & _ & _).
  destruct (moves_compose _ _ _ _ _ Hnd Hloop group_names_NoDup)
    as (rts & Hlen & Hrts).
  { intros g _. inversion 1. }
  exists rts. split; [simpl in Hlen; lia | done].
Qed.

(** A group without reference atoms is reported with no atom and no rmsd,
    whatever the target holds. *)
Lemma empty_group_entry (h0 h : Store) (results : Dict (option Rms))
    (rows : list (string * nat * string)) (grp : string) :
  dict_get refs grp = Some [] → run h0 = Ok (h, results, rows) →
  dict_get results grp = Some None ∧ (grp, 0%nat, "NA") ∈ rows.
Proof.
  intros Hra Hrun.
  pose proof (group_of_dict_get is_aa loops ec ic ref_chain _ _ Hra) as Hgrp.
  destruct (dict_get_is_Some cvs grp) as [ca Hca].
  { unfold cv_atoms. by rewrite atom_groups_keys. }
  assert (Hm : matched grp = Ok None).
  { apply (matched_none_iff is_aa loops ec ic ref_chain cv_chain grp [] ca Hra Hca).
    intros k Hk. inversion Hk. }
  destruct (entry_cases _ _ _ _ _ _ _ _ _ _ _ _ _ _ _ _ grp Hrun Hgrp)
    as [[_ Hget] | (h' & f & m & sup & Hm' & _)]; [|congruence].
  split; [done|].
  pose proof (row_of_entry _ _ _ _ _ _ _ _ _ _ _ _ _ _ _ _ _ _ Hrun Hget) as Hrow.
  unfold ref_key_count in Hrow. unfold ref_atoms in *. by rewrite Hra in Hrow.
Qed.

(** Whether a group's entry is [None], in a run that returns. *)
Lemma result_absent_iff (h0 h : Store) (results : Dict (option Rms))
    (rows : list (string * nat * string)) (grp : string) :
  run h0 = Ok (h, results, rows) →
  (dict_get results grp = Some None ↔ grp ∈ group_names ∧ matched grp = Ok None).
Proof.
  intros Hrun. destruct (decide (grp ∈ group_names)) as [Hgrp | Hgrp].
  - destruct (entry_cases _ _ _ _ _ _ _ _ _ _ _ _ _ _ _ _ grp Hrun Hgrp)
      as [[Hm Hget] | (h' & f & m & sup & Hm & _ & Hget)]; rewrite Hget, Hm.
    + done.
    + split; [done | by intros [_ ?]].
  - pose proof (main_inv _ _ _ _ _ _ _ _ _ _ _ _ _ _ _ _ Hrun) as (_ & Hkeys & _).
    rewrite dict_get_absent by (by rewrite Hkeys). split; [done | by intros [? _]].
Qed.

Lemma rows_columns (h0 h : Store) (results : Dict (option Rms))
    (rows : list (string * nat * string)) :
  run h0 = Ok (h, results, rows) →
  fst <$> rows = (fun g => (g, nkeys g)) <$> group_names.
Proof.
  intros (_ & Hkeys & ->)%main_inv. rewrite <- Hkeys, <- !list_fmap_compose. done.
Qed.

End RunFacts.

(** The sample reference against a target with other residue numbers. *)
Lemma unmatched_all_means_nothing_done_witness :
  let ra := Sample.groups_of Sample.ref_chain "all" in
  let ca := Sample.groups_of Sample.cv_far "all" in
  (ra ≠ [] ∧ ca ≠ [] ∧ ∀ k, k ∈ atom_key <$> ra → k ∉ atom_key <$> ca)
  ∧ ∃ rows,
      Sample.run_on Sample.ref_chain Sample.cv_far
      = Ok (Sample.h0, (fun g => (g, None)) <$> group_names, rows)
      ∧ (fun r => fst (fst r)) <$> rows = ["all"; "backbone"; "loop"; "ec"; "ic"]
      ∧ ∀ grp n cell, (grp, n, cell) ∈ rows → cell = "NA".
Proof.
  intros ra ca.
  assert (Hno : ∀ k, k ∈ atom_key <$> ra → k ∉ atom_key <$> ca).
  { apply list.Forall_forall. apply (bool_decide_unpack _). vm_compute. exact I. }
  split; [split; [by vm_compute | split; [by vm_compute | exact Hno]]|].
  exact (unmatched_all_means_nothing_done Z Z nat Sample.toy_fit
           Sample.toy_transform Sample.toy_fmt Sample.std Sample.loops Sample.ec
           Sample.ic Sample.ref_chain Sample.cv_far ra ca Sample.h0
           eq_refl eq_refl Hno).
Defined.

(** The sample target, moved once per fitted group. *)
Lemma target_moved_once_per_fit_witness :
  NoDup (coord_loc <$> chain_get_atoms Sample.cv_chain)
  ∧ match Sample.run with
    | Ok (h, results, rows) =>
        ∃ rts,
          length rts
          = length (filter (fun it => is_Some (snd it))
                      (results : list (string * option nat)))
          ∧ ∀ a, a ∈ chain_get_atoms Sample.cv_chain →
                 h (coord_loc a)
                 = foldl (fun c rt => Sample.toy_transform rt c)
                     (Sample.h0 (coord_loc a)) rts
    | Raise e =>
        ∃ g h fixed moving,
          g ∈ group_names
          ∧ matched_atoms Sample.std Sample.loops Sample.ec Sample.ic
              Sample.ref_chain Sample.cv_chain g = Ok (Some (fixed, moving))
          ∧ set_atoms Z Z nat Sample.toy_fit h fixed moving = Raise e
    end.
Proof.
  split; [exact sample_target_locs_distinct|].
  exact (target_moved_once_per_fit Z Z nat Sample.toy_fit Sample.toy_transform
           Sample.toy_fmt Sample.std Sample.loops Sample.ec Sample.ic
           Sample.ref_chain Sample.cv_chain Sample.h0
           sample_target_locs_distinct).
Defined.

(** ** Omitted region arguments *)

Lemma filter_none (l : list Atom) (P : Atom -> bool) :
  (∀ a, P a = false) → filter (fun a => P a) l = [].
Proof.
  intros H. induction l as [|x l IH]; [done|].
  rewrite filter_cons, H. simpl. done.
Qed.

Lemma group_of_empty_regions (is_aa : Residue -> bool) (l e i : Regions)
    (chain : Chain) (name : string) :
  (name, []) ∈ [("loop", l); ("ec", e); ("ic", i)] →
  dict_get (atom_groups is_aa l e i chain) name = Some [].
Proof.
  rewrite !elem_of_cons, elem_of_nil.
  intros [[= -> <-] | [[= -> <-] | [[= -> <-] | []]]];
    (rewrite atom_groups_get by (unfold group_names; set_solver));
    rewrite chain_share_filter; apply (f_equal Some);
    apply filter_none; intros a; unfold goes_to; simpl;
    by rewrite ?orb_false_r.
Qed.

(** X13. An empty region list (the argument was left out) gives, in a run
    that returns, the group's row with n_atoms 0 and rmsd ['NA'], and the
    entry [None]; a run that does not return was stopped by a fit. *)
Theorem omitted_regions_give_empty_rows (Coord RotTran Rms : Type)
    (svd_fit : list Coord -> list Coord -> result (Rms * RotTran))
    (transform : RotTran -> Coord -> Coord) (fmt3 : Rms -> string)
    (is_aa : Residue -> bool) (loops ec ic : Regions)
    (ref_chain cv_chain : Chain) (h0 : loc -> Coord) :
  match main Coord RotTran Rms svd_fit transform fmt3 is_aa loops ec ic
          ref_chain cv_chain h0 with
  | Ok (h, results, rows) =>
      (loops = [] →
       dict_get results "loop" = Some None ∧ ("loop", 0%nat, "NA") ∈ rows)
      ∧ (ec = [] →
         dict_get results "ec" = Some None ∧ ("ec", 0%nat, "NA") ∈ rows)
      ∧ (ic = [] →
         dict_get results "ic" = Some None ∧ ("ic", 0%nat, "NA") ∈ rows)
  | Raise e =>
      ∃ g h fixed moving,
        g ∈ group_names
        ∧ matched_atoms is_aa loops ec ic ref_chain cv_chain g
          = Ok (Some (fixed, moving))
        ∧ set_atoms Coord RotTran Rms svd_fit h fixed moving = Raise e
  end.
Proof.
  destruct (main _ _ _ _ _ _ _ _ _ _ _ _ _) as [[[h results] rows]|e] eqn:Hrun;
    [|exact (main_raise _ _ _ _ _ _ _ _ _ _ _ _ _ _ Hrun)].
  assert (Hrow : ∀ name, (name, []) ∈ [("loop", loops); ("ec", ec); ("ic", ic)] →
            dict_get results name = Some None ∧ (name, 0%nat, "NA") ∈ rows).
  { intros name Hname.
    apply (empty_group_entry _ _ _ _ _ _ _ _ _ _ _ _ _ _ _ _ name
             (group_of_empty_regions is_aa loops ec ic ref_chain name Hname) Hrun). }
  split; [|split]; intros ->; apply Hrow; set_solver.
Qed.

(** ** The whole of [main] *)

Lemma region_arg_cases (py_int : string -> option Z) (arg : string) :
  (∃ regs, region_arg py_int arg = Ok regs)
  ∨ region_arg py_int arg = Raise ValueError.
Proof.
  destruct arg as [|c arg]; [left; by exists []|].
  unfold region_arg, parse_ranges.
  destruct (parse_loop_cases py_int (py_split comma (String c arg)) [])
    as [(ps & _ & ->) | [_ ->]]; [left; by eexists | by right].
Qed.

Lemma extract_atoms_cases (structure : gmap Z (gmap string Chain)) (chain_id : string) :
  (∃ model chain, structure !! 0 = Some model ∧ model !! chain_id = Some chain
                  ∧ extract_atoms structure chain_id = Ok chain)
  ∨ ((¬ ∃ model chain, structure !! 0 = Some model ∧ model !! chain_id = Some chain)
     ∧ extract_atoms structure chain_id = Raise KeyError).
Proof.
  unfold extract_atoms. destruct (structure !! 0) as [model|] eqn:Hm; simpl.
  - destruct (model !! chain_id) as [chain|] eqn:Hc; simpl.
    + left. by exists model, chain.
    + right. split; [|done]. intros (m & ch & [= <-] & H). congruence.
  - right. split; [|done]. by intros (m & ch & H & _).
Qed.

(** X14. Download and file reading aside, [main] raises ValueError when a
    region argument does not parse, whatever the structures hold; with the
    regions parsed it raises KeyError when model 0 of either structure lacks
    the chain; with the chains found it is the run on those chains, which
    raises only what a fit raises and otherwise returns the rows of the five
    groups. *)
Theorem main_from_args_outcomes (Coord RotTran Rms : Type)
    (svd_fit : list Coord -> list Coord -> result (Rms * RotTran))
    (transform : RotTran -> Coord -> Coord) (fmt3 : Rms -> string)
    (is_aa : Residue -> bool) (py_int : string -> option Z)
    (loops_arg ec_arg ic_arg chain_id : string)
    (ref_struct conv_struct : gmap Z (gmap string Chain)) (h0 : loc -> Coord) :
  let out := main_from_args Coord RotTran Rms svd_fit transform fmt3 is_aa py_int
               loops_arg ec_arg ic_arg chain_id ref_struct conv_struct h0 in
  let regions_ok :=
    ∃ l e i, region_arg py_int loops_arg = Ok l
             ∧ region_arg py_int ec_arg = Ok e
             ∧ region_arg py_int ic_arg = Ok i in
  let has_chain := fun structure : gmap Z (gmap string Chain) =>
    ∃ model chain, structure !! 0 = Some model ∧ model !! chain_id = Some chain in
  (¬ regions_ok → out = Raise ValueError)
  ∧ (regions_ok → ¬ (has_chain ref_struct ∧ has_chain conv_struct) →
     out = Raise KeyError)
  ∧ (∀ l e i m1 c1 m2 c2,
       region_arg py_int loops_arg = Ok l → region_arg py_int ec_arg = Ok e →
       region_arg py_int ic_arg = Ok i →
       ref_struct !! 0 = Some m1 → m1 !! chain_id = Some c1 →
       conv_struct !! 0 = Some m2 → m2 !! chain_id = Some c2 →
       out = main Coord RotTran Rms svd_fit transform fmt3 is_aa l e i c1 c2 h0
       ∧ match out with
         | Ok (h, results, rows) =>
             (fun r => fst (fst r)) <$> rows = ["all"; "backbone"; "loop"; "ec"; "ic"]
         | Raise err =>
             ∃ g h fixed moving,
               matched_atoms is_aa l e i c1 c2 g = Ok (Some (fixed, moving))
               ∧ set_atoms Coord RotTran Rms svd_fit h fixed moving = Raise err
         end).
Proof.
  intros out regions_ok has_chain. split; [|split].
  - intros Hbad. unfold out, main_from_args.
    destruct (region_arg_cases py_int loops_arg) as [[l Hl] | ->]; [|done].
    destruct (region_arg_cases py_int ec_arg) as [[e He] | He].
    2: { rewrite Hl, He. done. }
    destruct (region_arg_cases py_int ic_arg) as [[i Hi] | Hi].
    2: { rewrite Hl, He, Hi. done. }
    destruct Hbad. by exists l, e, i.
  - intros (l & e & i & Hl & He & Hi) Hno. unfold out, main_from_args.
    rewrite Hl, He, Hi. cbn [mbind result_bind].
    destruct (extract_atoms_cases ref_struct chain_id)
      as [(m1 & c1 & Hm1 & Hc1 & ->) | [_ ->]]; cbn [mbind result_bind]; [|done].
    destruct (extract_atoms_cases conv_struct chain_id)
      as [(m2 & c2 & Hm2 & Hc2 & ->) | [_ ->]]; cbn [mbind result_bind]; [|done].
    destruct Hno. split; [by exists m1, c1 | by exists m2, c2].
  - intros l e i m1 c1 m2 c2 Hl He Hi Hm1 Hc1 Hm2 Hc2.
    assert (Hout : out = main Coord RotTran Rms svd_fit transform fmt3 is_aa
                           l e i c1 c2 h0).
    { unfold out, main_from_args, extract_atoms.
      rewrite Hl, He, Hi, Hm1, Hm2. cbn [mbind result_bind lift_key].
      rewrite Hc1, Hc2. done. }
    split; [done|]. rewrite Hout.
    destruct (main _ _ _ _ _ _ _ _ _ _ _ _ _) as [[[h results] rows]|err] eqn:Hrun.
    + pose proof (main_inv _ _ _ _ _ _ _ _ _ _ _ _ _ _ _ _ Hrun) as (_ & Hkeys & ->).
      by rewrite <- list_fmap_compose.
    + destruct (main_raise _ _ _ _ _ _ _ _ _ _ _ _ _ _ Hrun)
        as (g & h & f & m & _ & Hm & Hfit).
      by exists g, h, f, m.
Qed.

(** ** The converter and the backbone *)

(** X15. The converter's filter keeps every atom named N, CA or C of an
    ordinary residue that is a standard amino acid or CYSP: the names the
    comparison takes as backbone are never dropped from protein residues. *)
Theorem accept_keeps_protein_backbone (a : Atom) :
  ordinary_residue (get_parent a) →
  resname (get_parent a) ∈ standard_aa ∨ resname (get_parent a) = "CYSP" →
  is_backbone_name (get_name a) = true →
  accept_atom a = true.
Proof.
  unfold ordinary_residue, accept_atom. intros Hord Hres Hbb.
  cbv zeta. rewrite Hord, String.eqb_refl.
  destruct (str_in (resname (get_parent a)) standard_aa) eqn:Hstd; [done|].
  destruct Hres as [Hin | Hc].
  - apply str_in_spec in Hin. congruence.
  - rewrite Hc, String.eqb_refl. apply str_in_spec.
    apply is_backbone_name_spec in Hbb.
    rewrite !elem_of_cons in *. tauto.
Qed.

Lemma accept_keeps_protein_backbone_witness :
  let a := mkAtom (Sample.res " " 5 "CYSP" []) "CA" 0%nat in
  ordinary_residue (get_parent a)
  ∧ (resname (get_parent a) ∈ standard_aa ∨ resname (get_parent a) = "CYSP")
  ∧ is_backbone_name (get_name a) = true
  ∧ accept_atom a = true.
Proof.
  intros a. split; [reflexivity|]. split; [by right|]. split; [reflexivity|].
  exact (accept_keeps_protein_backbone a eq_refl (or_intror eq_refl) eq_refl).
Defined.


(** ** What the report does not depend on *)

(** X16. The group and n_atoms columns do not depend on the target: two
    runs that return, with the same reference and regions, on any two
    targets and stores, agree on them. *)
Theorem n_atoms_ignores_target (Coord RotTran Rms : Type)
    (svd_fit : list Coord -> list Coord -> result (Rms * RotTran))
    (transform : RotTran -> Coord -> Coord) (fmt3 : Rms -> string)
    (is_aa : Residue -> bool) (loops ec ic : Regions)
    (ref_chain cv1 cv2 : Chain) (h1 h2 : loc -> Coord)
    (r1 r2 : (loc -> Coord) * Dict (option Rms) * list (string * nat * string)) :
  main Coord RotTran Rms svd_fit transform fmt3 is_aa loops ec ic ref_chain cv1 h1
  = Ok r1 →
  main Coord RotTran Rms svd_fit transform fmt3 is_aa loops ec ic ref_chain cv2 h2
  = Ok r2 →
  fst <$> snd r1 = fst <$> snd r2.
Proof.
  destruct r1 as [[h results] rows], r2 as [[h' results'] rows'].
  intros Hrun1 Hrun2. cbn [snd].
  rewrite (rows_columns _ _ _ _ _ _ _ _ _ _ _ _ _ _ _ _ Hrun1).
  by rewrite (rows_columns _ _ _ _ _ _ _ _ _ _ _ _ _ _ _ _ Hrun2).
Qed.

(** The sample reference against its two targets. *)
Lemma n_atoms_ignores_target_witness :
  let r1 := Sample.out_of (Sample.run_on Sample.ref_chain Sample.cv_chain) in
  let r2 := Sample.out_of (Sample.run_on Sample.ref_chain Sample.cv_far) in
  Sample.run_on Sample.ref_chain Sample.cv_chain = Ok r1
  ∧ Sample.run_on Sample.ref_chain Sample.cv_far = Ok r2
  ∧ fst <$> snd r1 = fst <$> snd r2.
Proof.
  intros r1 r2.
  assert (H1 : Sample.run_on Sample.ref_chain Sample.cv_chain = Ok r1)
    by (vm_compute; reflexivity).
  assert (H2 : Sample.run_on Sample.ref_chain Sample.cv_far = Ok r2)
    by (vm_compute; reflexivity).
  split; [exact H1|]. split; [exact H2|].
  exact (n_atoms_ignores_target Z Z nat Sample.toy_fit Sample.toy_transform
           Sample.toy_fmt Sample.std Sample.loops Sample.ec Sample.ic
           Sample.ref_chain Sample.cv_chain Sample.cv_far Sample.h0 Sample.h0
           r1 r2 H1 H2).
Defined.

(** X17. Whether a group's rmsd is absent does not depend on which of the
    two chains is taken as reference: of two runs that return, one on each
    order of the chains, the groups with entry [None] are the same. *)
Theorem absent_rmsd_is_symmetric (Coord RotTran Rms : Type)
    (svd_fit : list Coord -> list Coord -> result (Rms * RotTran))
    (transform : RotTran -> Coord -> Coord) (fmt3 : Rms -> string)
    (is_aa : Residue -> bool) (loops ec ic : Regions)
    (chain_a chain_b : Chain) (h1 h2 : loc -> Coord)
    (r1 r2 : (loc -> Coord) * Dict (option Rms) * list (string * nat * string)) :
  main Coord RotTran Rms svd_fit transform fmt3 is_aa loops ec ic chain_a chain_b h1
  = Ok r1 →
  main Coord RotTran Rms svd_fit transform fmt3 is_aa loops ec ic chain_b chain_a h2
  = Ok r2 →
  ∀ grp, dict_get (snd (fst r1)) grp = Some None
         ↔ dict_get (snd (fst r2)) grp = Some None.
Proof.
  destruct r1 as [[h results] rows], r2 as [[h' results'] rows'].
  intros Hrun1 Hrun2 grp. cbn [fst snd].
  rewrite (result_absent_iff _ _ _ _ _ _ _ _ _ _ _ _ _ _ _ _ grp Hrun1).
  rewrite (result_absent_iff _ _ _ _ _ _ _ _ _ _ _ _ _ _ _ _ grp Hrun2).
  assert (Hsym : ∀ x y, grp ∈ group_names →
            matched_atoms is_aa loops ec ic x y grp = Ok None →
            matched_atoms is_aa loops ec ic y x grp = Ok None).
  { intros x y Hgrp Hnone.
    destruct (dict_get_is_Some (atom_groups is_aa loops ec ic x) grp) as [lx Hx].
    { by rewrite atom_groups_keys. }
    destruct (dict_get_is_Some (atom_groups is_aa loops ec ic y) grp) as [ly Hy].
    { by rewrite atom_groups_keys. }
    apply (matched_none_iff is_aa loops ec ic y x grp ly lx Hy Hx).
    pose proof (proj1 (matched_none_iff is_aa loops ec ic x y grp lx ly Hx Hy) Hnone)
      as Hno.
    intros k Hk Hk'. by apply (Hno k). }
  split; intros [Hgrp Hnone]; (split; [done | by apply Hsym]).
Qed.

(** The sample run and the run with the two chains exchanged. *)
Lemma absent_rmsd_is_symmetric_witness :
  let r1 := Sample.out_of (Sample.run_on Sample.ref_chain Sample.cv_chain) in
  let r2 := Sample.out_of (Sample.run_on Sample.cv_chain Sample.ref_chain) in
  Sample.run_on Sample.ref_chain Sample.cv_chain = Ok r1
  ∧ Sample.run_on Sample.cv_chain Sample.ref_chain = Ok r2
  ∧ ∀ grp, dict_get (snd (fst r1)) grp = Some None
           ↔ dict_get (snd (fst r2)) grp = Some None.
Proof.
  intros r1 r2.
  assert (H1 : Sample.run_on Sample.ref_chain Sample.cv_chain = Ok r1)
    by (vm_compute; reflexivity).
  assert (H2 : Sample.run_on Sample.cv_chain Sample.ref_chain = Ok r2)
    by (vm_compute; reflexivity).
  split; [exact H1|]. split; [exact H2|].
  exact (absent_rmsd_is_symmetric Z Z nat Sample.toy_fit Sample.toy_transform
           Sample.toy_fmt Sample.std Sample.loops Sample.ec Sample.ic
           Sample.ref_chain Sample.cv_chain Sample.h0 Sample.h0 r1 r2 H1 H2).
Defined.
